(** * WLAN_Monitor: a shallow embedding of [wlan_fin.py]

    The development follows the layout of the Python module: string
    helpers, the neighbour-table reader ([scan_arp_table]), the state store
    ([load_state], [save_state]), the event sink ([rotate_log_file],
    [append_log]), [normalize_subnet] and the scan loop ([run_monitor]).

    Text is a [string] of 8-bit characters.  Values read back from the JSON
    state file are untyped Python values ([pyval]); dictionaries keep their
    insertion order, as Python's do.

    What the program takes from its environment is an argument of the
    function that uses it: the output of [arp -a], the readings of the
    clock, the I/O step that fails in a call (if one does), and the order in
    which a [for] loop visits a Python set.  An exception that a
    [try ... except Exception] catches is an [option] or a flag in the
    result; the files are finite maps from paths to contents. *)

From Stdlib Require Import Ascii String ZArith List Bool Lia.
From stdpp Require Import base decidable option list strings pretty gmap sorting.

Local Open Scope string_scope.
Local Open Scope list_scope.

(** ** Strings *)

Module Str.

(** [c in s] for a one-character needle. *)
Fixpoint contains (c : ascii) (s : string) : bool :=
  match s with
  | EmptyString => false
  | String a s' => if Ascii.eqb a c then true else contains c s'
  end.

(** [s.split(sep)] for a one-character separator: never the empty list. *)
Fixpoint split (sep : ascii) (s : string) : list string :=
  match s with
  | EmptyString => [EmptyString]
  | String a s' =>
      if Ascii.eqb a sep then EmptyString :: split sep s'
      else match split sep s' with
           | [] => [String a EmptyString]
           | p :: ps => String a p :: ps
           end
  end.

(** [sep.join(parts)]. *)
Fixpoint join (sep : string) (parts : list string) : string :=
  match parts with
  | [] => EmptyString
  | [p] => p
  | p :: ps => p +:+ sep +:+ join sep ps
  end.

(** [s.startswith(p)]. *)
Fixpoint startswith (p s : string) : bool :=
  match p, s with
  | EmptyString, _ => true
  | String a p', String b s' => Ascii.eqb a b && startswith p' s'
  | String _ _, EmptyString => false
  end.

(** [needle in s] for strings: some suffix of [s] starts with [needle]. *)
Fixpoint infix (needle s : string) : bool :=
  startswith needle s ||
  match s with
  | EmptyString => false
  | String _ s' => infix needle s'
  end.

(** [s <= t]: the order of the character codes, the first difference
    decides. *)
Fixpoint leb (s t : string) : bool :=
  match s, t with
  | EmptyString, _ => true
  | String _ _, EmptyString => false
  | String a s', String b t' =>
      if Nat.ltb (nat_of_ascii a) (nat_of_ascii b) then true
      else if Ascii.eqb a b then leb s' t' else false
  end.

Fixpoint map (f : ascii → ascii) (s : string) : string :=
  match s with
  | EmptyString => EmptyString
  | String a s' => String (f a) (map f s')
  end.

Definition in_range (lo hi : nat) (a : ascii) : bool :=
  Nat.leb lo (nat_of_ascii a) && Nat.leb (nat_of_ascii a) hi.

(** [s.upper()] on the letters a-z. *)
Definition upper_char (a : ascii) : ascii :=
  if in_range 97 122 a then ascii_of_nat (nat_of_ascii a - 32) else a.
Definition upper : string → string := map upper_char.

(** [s.replace(x, y)] for one-character [x] and [y]. *)
Definition replace (x y : ascii) : string → string :=
  map (λ a, if Ascii.eqb a x then y else a).

End Str.

(** ** Python values

    What [json.load] returns: [None], booleans, integers, strings, lists and
    dictionaries (numbers are modelled as integers).  A dictionary is the
    list of its items in insertion order; a key that is set again keeps its
    place. *)

Inductive pykey :=
| KNone
| KInt (z : Z)
| KStr (s : string).

Unset Elimination Schemes.
Inductive pyval :=
| PNone
| PBool (b : bool)
| PInt (z : Z)
| PStr (s : string)
| PList (l : list pyval)
| PDict (d : list (pykey * pyval)).
Set Elimination Schemes.

#[global] Instance pykey_eq_dec : EqDecision pykey.
Proof. solve_decision. Defined.

Definition pykey_enc (k : pykey) : unit + Z + string :=
  match k with
  | KNone => inl (inl tt)
  | KInt z => inl (inr z)
  | KStr s => inr s
  end.

Definition pykey_dec (x : unit + Z + string) : pykey :=
  match x with
  | inl (inl _) => KNone
  | inl (inr z) => KInt z
  | inr s => KStr s
  end.

#[global] Instance pykey_countable : Countable pykey.
Proof. by apply (inj_countable' pykey_enc pykey_dec); intros []. Defined.

Module Dict.
Section dict.
Context {K V : Type} `{EqDecision K}.

(** [d.get(k)] *)
Fixpoint get (k : K) (d : list (K * V)) : option V :=
  match d with
  | [] => None
  | (k', v) :: d' => if decide (k' = k) then Some v else get k d'
  end.

(** [d[k] = v] *)
Fixpoint set (k : K) (v : V) (d : list (K * V)) : list (K * V) :=
  match d with
  | [] => [(k, v)]
  | (k', v') :: d' =>
      if decide (k' = k) then (k', v) :: d' else (k', v') :: set k v d'
  end.

(** [d.keys()] *)
Definition keys (d : list (K * V)) : list K := d.*1.

End dict.
End Dict.

(** [bool(v)] *)
Definition truthy (v : pyval) : bool :=
  match v with
  | PNone => false
  | PBool b => b
  | PInt z => negb (Z.eqb z 0)
  | PStr s => negb (String.eqb s EmptyString)
  | PList l => negb (Nat.eqb (length l) 0)
  | PDict d => negb (Nat.eqb (length d) 0)
  end.

(** The dictionary key a value hashes to; lists and dictionaries are
    unhashable ([TypeError]).  [True] and [1] are the same key. *)
Definition as_key (v : pyval) : option pykey :=
  match v with
  | PNone => Some KNone
  | PBool b => Some (KInt (if b then 1 else 0))
  | PInt z => Some (KInt z)
  | PStr s => Some (KStr s)
  | PList _ | PDict _ => None
  end.

(** A key used as a value. *)
Definition key_value (k : pykey) : pyval :=
  match k with
  | KNone => PNone
  | KInt z => PInt z
  | KStr s => PStr s
  end.

(** ** Devices *)

Record Device := { mac : string; last_seen : string }.

(** The dictionary [{ip: {"mac": ..., "last_seen": ...}}] built by a scan. *)
Definition DeviceSet := list (string * Device).

Definition device_py (d : Device) : pyval :=
  PDict [(KStr "mac", PStr (mac d)); (KStr "last_seen", PStr (last_seen d))].

Definition devices_items (D : DeviceSet) : list (pykey * pyval) :=
  map (λ e, (KStr e.1, device_py e.2)) D.

Definition devices_py (D : DeviceSet) : pyval := PDict (devices_items D).

(** ** Regular expressions

    The fragment of Python's [re] that [scan_arp_table] uses: greedy bounded
    repetition of a character class, concatenation and capturing groups,
    matched by backtracking.  Captures are listed in the order the groups
    close, which is their number when no group contains another. *)

Module Re.

Inductive regex :=
| Rep (cls : ascii → bool) (lo : nat) (hi : option nat)
| Cat (r1 r2 : regex)
| Group (r : regex).

Fixpoint drop (n : nat) (s : string) : string :=
  match n, s with
  | S n', String _ s' => drop n' s'
  | _, _ => s
  end.

Fixpoint take (n : nat) (s : string) : string :=
  match n, s with
  | S n', String a s' => String a (take n' s')
  | _, _ => EmptyString
  end.

(** Length of the longest prefix of [s] inside [cls], capped by [hi]. *)
Fixpoint run (cls : ascii → bool) (hi : option nat) (s : string) : nat :=
  match s with
  | EmptyString => 0
  | String a s' =>
      match hi with
      | Some 0 => 0
      | _ => if cls a then S (run cls (pred <$> hi) s') else 0
      end
  end.

(** Greedy choice: try to continue after [n] characters, then after
    [n - 1], ... down to [lo]. *)
Fixpoint backtrack {R} (k : string → option R) (s : string) (lo n : nat)
  : option R :=
  if Nat.ltb n lo then None
  else match k (drop n s) with
       | Some res => Some res
       | None => match n with
                 | 0 => None
                 | S n' => backtrack k s lo n'
                 end
       end.

Fixpoint rmatch {R} (r : regex) (s : string) (caps : list string)
    (k : string → list string → option R) : option R :=
  match r with
  | Rep cls lo hi => backtrack (λ rest, k rest caps) s lo (run cls hi s)
  | Cat r1 r2 => rmatch r1 s caps (λ s1 caps1, rmatch r2 s1 caps1 k)
  | Group r1 =>
      rmatch r1 s caps
        (λ s1 caps1,
           k s1 (caps1 ++ [take (String.length s - String.length s1) s]))
  end.

(** [re.match] at the start of [s]: the length of the match and its
    groups. *)
Definition match_at (r : regex) (s : string) : option (nat * list string) :=
  rmatch r s []
    (λ rest caps, Some (String.length s - String.length rest, caps)).

(** [re.finditer]: scan from the left; after a match, go on where it
    ended.  [skip] counts the characters of the last match still to pass. *)
Fixpoint finditer_from (r : regex) (skip : nat) (s : string)
  : list (list string) :=
  match s with
  | EmptyString =>
      match skip with
      | 0 => match match_at r s with
             | Some (_, caps) => [caps]
             | None => []
             end
      | S _ => []
      end
  | String _ s' =>
      match skip with
      | S n => finditer_from r n s'
      | 0 => match match_at r s with
             | Some (len, caps) => caps :: finditer_from r (pred len) s'
             | None => finditer_from r 0 s'
             end
      end
  end.

Definition finditer (r : regex) (s : string) : list (list string) :=
  finditer_from r 0 s.

(** [\d] *)
Definition digit (a : ascii) : bool := Str.in_range 48 57 a.

(** [\s] on 8-bit characters: tab to carriage return, the separators
    0x1c-0x1f, space, NEL and the no-break space. *)
Definition space (a : ascii) : bool :=
  Str.in_range 9 13 a || Str.in_range 28 32 a
  || Nat.eqb (nat_of_ascii a) 133 || Nat.eqb (nat_of_ascii a) 160.

Definition chr (c : ascii) : regex := Rep (Ascii.eqb c) 1 (Some 1).

End Re.

(** ** Neighbour table reader *)

(** [[0-9a-fA-F\-:]] *)
Definition mac_char (a : ascii) : bool :=
  Str.in_range 48 57 a || Str.in_range 97 102 a || Str.in_range 65 70 a
  || Ascii.eqb a "-" || Ascii.eqb a ":".

Definition octet : Re.regex := Re.Rep Re.digit 1 (Some 3).

(** [(\d{1,3}\.\d{1,3}\.\d{1,3}\.\d{1,3})\s+([0-9a-fA-F\-:]{17})\s+] *)
Definition arp_pattern : Re.regex :=
  Re.Cat
    (Re.Group
       (Re.Cat octet (Re.Cat (Re.chr ".")
       (Re.Cat octet (Re.Cat (Re.chr ".")
       (Re.Cat octet (Re.Cat (Re.chr ".") octet)))))))
    (Re.Cat (Re.Rep Re.space 1 None)
    (Re.Cat (Re.Group (Re.Rep mac_char 17 (Some 17)))
            (Re.Rep Re.space 1 None))).

(** [group(2).upper().replace("-", ":")]; [Str.upper] is exact on the
    characters group 2 can hold. *)
Definition normalize_mac (raw : string) : string :=
  Str.replace "-" ":" (Str.upper raw).

(** The body of the [for match in re.finditer(...)] loop; [now] is what
    [datetime.now().isoformat()] gives in this pass of the loop. *)
Definition scan_entry (now : string) (devices : DeviceSet) (m : list string)
  : DeviceSet :=
  let ip := nth 0 m EmptyString in
  let mac_raw := normalize_mac (nth 1 m EmptyString) in
  if negb (String.eqb mac_raw "FF:FF:FF:FF:FF:FF")
     && negb (Str.startswith "FF:" mac_raw)
  then
    let mac := if Nat.eqb (String.length mac_raw) 17 then mac_raw
               else "UNKNOWN" in
    Dict.set ip {| mac := mac; last_seen := now |} devices
  else devices.

(** The [for] loop from its [i]-th pass on: the clock is read anew in
    every pass that stores an entry, [now i] is its reading in pass [i]. *)
Fixpoint scan_matches (now : nat → string) (i : nat) (ms : list (list string))
    (devices : DeviceSet) : DeviceSet :=
  match ms with
  | [] => devices
  | m :: rest => scan_matches now (S i) rest (scan_entry (now i) devices m)
  end.

(** [output] is what [arp -a] printed, [None] when running it raised;
    [now] is the clock along the passes of the loop. *)
Definition scan_arp_table (output : option string) (now : nat → string)
  : DeviceSet :=
  match output with
  | None => []
  | Some text => scan_matches now 0 (Re.finditer arp_pattern text) []
  end.

Definition nl : string := String (ascii_of_nat 10) EmptyString.

Definition arp_sample : string :=
  "  192.168.1.1           00-11-22-33-44-55     dynamic" +:+ nl +:+
  "  192.168.1.7           00-11-22-33-44        dynamic" +:+ nl +:+
  "  192.168.1.9           ff-12-34-56-78-9a     dynamic" +:+ nl +:+
  "  192.168.1.255         ff-ff-ff-ff-ff-ff     static" +:+ nl.

(** ** Paths and files *)

Record Path := { parent : string; name : string }.

#[global] Instance Path_eq_dec : EqDecision Path.
Proof. solve_decision. Defined.

#[global] Instance Path_countable : Countable Path.
Proof.
  by apply (inj_countable' (λ p, (parent p, name p))
              (λ x, {| parent := x.1; name := x.2 |})); intros [].
Defined.

(** [name.rfind(".")]: the name cut at its last dot, which starts the
    second half. *)
Fixpoint rsplit_dot (s : string) : option (string * string) :=
  match s with
  | EmptyString => None
  | String a s' =>
      match rsplit_dot s' with
      | Some (pre, suf) => Some (String a pre, suf)
      | None => if Ascii.eqb a "." then Some (EmptyString, s) else None
      end
  end.

(** [path.stem] and [path.suffix]: the last dot splits the name unless it
    is its first or its last character. *)
Definition stem_suffix (nm : string) : string * string :=
  match rsplit_dot nm with
  | Some (pre, suf) =>
      if Nat.ltb 0 (String.length pre) && Nat.ltb 1 (String.length suf)
      then (pre, suf) else (nm, EmptyString)
  | None => (nm, EmptyString)
  end.

Definition stem (p : Path) : string := (stem_suffix (name p)).1.
Definition suffix (p : Path) : string := (stem_suffix (name p)).2.

(** [path.with_suffix(suf)] for a [suf] that starts with a dot;
    [ValueError] on an empty name. *)
Definition with_suffix (p : Path) (suf : string) : option Path :=
  if String.eqb (name p) EmptyString then None
  else Some {| parent := parent p; name := stem p +:+ suf |}.

(** ** State store

    The text of a state file is represented by what [json.load] makes of
    it: [Json data] when it parses to [data], [Garbage] when reading or
    parsing it raises. *)

Inductive content :=
| Json (data : pyval)
| Garbage.

Definition empty_snapshot : pyval :=
  PDict [(KStr "devices", PDict []); (KStr "last_scan", PNone)].

(** [isinstance(v, dict) and "ip" in v] *)
Definition has_ip (v : pyval) : bool :=
  match v with
  | PDict f => bool_decide (is_Some (Dict.get (KStr "ip") f))
  | _ => false
  end.

(** The migration loop of [load_state] over [devices.items()]; [None]
    when an exception is raised ([info] has no [get], [ip] is unhashable). *)
Fixpoint migrate (now : string) (items new_devices : list (pykey * pyval))
  : option (list (pykey * pyval)) :=
  match items with
  | [] => Some new_devices
  | (mac, info) :: rest =>
      match info with
      | PDict f =>
          let ip := default PNone (Dict.get (KStr "ip") f) in
          if truthy ip then
            match as_key ip with
            | Some ip_key =>
                migrate now rest
                  (Dict.set ip_key
                     (PDict [(KStr "mac", key_value mac);
                             (KStr "last_seen",
                              default (PStr now)
                                (Dict.get (KStr "last_seen") f))])
                     new_devices)
            | None => None
            end
          else migrate now rest new_devices
      | _ => None
      end
  end.

(** The body of [load_state] once [json.load] has returned [data];
    [None] when an exception is raised. *)
Definition load_data (now : string) (data : pyval) : option pyval :=
  match data with
  | PDict top =>
      match Dict.get (KStr "devices") top with
      | Some devices =>
          if truthy devices then
            match devices with
            | PDict ((k0, v0) :: rest) =>
                if has_ip v0 then
                  new_devices ← migrate now ((k0, v0) :: rest) [];
                  Some (PDict (Dict.set (KStr "devices") (PDict new_devices)
                                 top))
                else Some data
            | _ => None
            end
          else Some data
      | None => Some data
      end
  | PList l =>
      if existsb (λ v, match v with
                       | PStr s => String.eqb s "devices"
                       | _ => false
                       end) l
      then None else Some data
  | PStr s => if Str.infix "devices" s then None else Some data
  | PNone | PBool _ | PInt _ => None
  end.

Definition load_state (fs : gmap Path content) (path : Path) (now : string)
  : pyval :=
  match fs !! path with
  | Some (Json data) => default empty_snapshot (load_data now data)
  | Some Garbage | None => empty_snapshot
  end.

(** Where a [save_state] call meets an I/O error, if it does. *)
Inductive io_fault :=
| NoFault
| OpenFails
| WriteFails
| ReplaceFails.

(** [src.replace(dst)] *)
Definition replace_file (src dst : Path) (fs : gmap Path content)
  : gmap Path content :=
  match fs !! src with
  | Some c => <[dst := c]> (delete src fs)
  | None => fs
  end.

Definition snapshot (devices : DeviceSet) (now : string) : pyval :=
  PDict [(KStr "devices", devices_py devices); (KStr "last_scan", PStr now)].

Definition save_state (fs : gmap Path content) (path : Path)
    (devices : DeviceSet) (now : string) (fault : io_fault)
  : bool * gmap Path content :=
  let data := snapshot devices now in
  match with_suffix path (suffix path +:+ ".tmp") with
  | None => (false, fs)
  | Some temp_path =>
      match fault with
      | OpenFails => (false, fs)
      | WriteFails => (false, <[temp_path := Garbage]> fs)
      | ReplaceFails => (false, <[temp_path := Json data]> fs)
      | NoFault =>
          (true, replace_file temp_path path (<[temp_path := Json data]> fs))
      end
  end.

(** ** Configuration *)

Record Config := {
  scan_interval : Z;
  state_file : string;
  log_file : string;
  subnet : string;
  max_log_size_kb : nat;
  ping_workers : nat;
  ping_timeout : nat
}.

Definition CONFIG : Config := {|
  scan_interval := 10;
  state_file := "wlan_status.json";
  log_file := "wlan_connection_log.txt";
  subnet := "192.168.178.0";
  max_log_size_kb := 500;
  ping_workers := 50;
  ping_timeout := 2
|}.

(** ** Event sink

    A log file is its text; its size is the number of its bytes. *)

(** How the [with open(log_path, "a") as f: f.write(line)] of an
    [append_log] call ends: well; with [open] raising, before any file is
    touched; or with [write] or the closing flush raising after [open] has
    created the file, when only the first [written] characters of the line
    have reached it. *)
Inductive append_fault :=
| AppendWorks
| AppendOpenFails
| AppendWriteFails (written : nat).

(** Which of the file operations of an [append_log] call fail. *)
Record log_faults := { rename_fails : bool; append_step : append_fault }.

Definition no_log_faults : log_faults :=
  {| rename_fails := false; append_step := AppendWorks |}.

Definition backup_path (log_path : Path) (stamp : string) : Path :=
  {| parent := parent log_path;
     name := stem log_path +:+ "_" +:+ stamp +:+ suffix log_path |}.

(** [stamp] is the clock in the form [%Y%m%d_%H%M%S]. *)
Definition rotate_log_file (cfg : Config) (fs : gmap Path string)
    (log_path : Path) (stamp : string) (flt : log_faults)
  : gmap Path string :=
  match fs !! log_path with
  | None => fs
  | Some text =>
      let max_size_bytes := (N.of_nat (max_log_size_kb cfg) * 1024)%N in
      let current_size := N.of_nat (String.length text) in
      if (max_size_bytes <=? current_size)%N then
        if rename_fails flt then fs
        else <[backup_path log_path stamp := text]> (delete log_path fs)
      else fs
  end.

Definition mac_str (mac : option string) : string :=
  match mac with
  | Some m =>
      if negb (String.eqb m EmptyString) && negb (String.eqb m "UNKNOWN")
      then m else "UNKNOWN"
  | None => "UNKNOWN"
  end.

Definition log_line (timestamp event ip : string) (mac : option string)
  : string :=
  "[" +:+ timestamp +:+ "] " +:+ event +:+ ": IP=" +:+ ip +:+ " MAC="
  +:+ mac_str mac +:+ nl.

Definition db_message (timestamp event ip : string) (mac : option string)
  : string :=
  let event_type :=
    if String.eqb event "VERBUNDEN" then "anmeldung" else "abmeldung" in
  if negb (String.eqb (mac_str mac) "UNKNOWN")
  then "IP=" +:+ ip +:+ " MAC=" +:+ mac_str mac +:+ " " +:+ event_type
       +:+ " [" +:+ timestamp +:+ "]"
  else "IP=" +:+ ip +:+ " " +:+ event_type +:+ " [" +:+ timestamp +:+ "]".

(** [open(log_path, "a").write(line)] *)
Definition append_file (path : Path) (line : string) (fs : gmap Path string)
  : gmap Path string :=
  <[path := default EmptyString (fs !! path) +:+ line]> fs.

(** [append_log]: the files afterwards and the message handed to
    [write_to_database].  [timestamp] is the clock in the form
    [%Y-%m-%d %H:%M:%S]. *)
Definition append_log (cfg : Config) (fs : gmap Path string)
    (log_path : Path) (event ip : string) (mac : option string)
    (stamp timestamp : string) (flt : log_faults)
  : gmap Path string * string :=
  let fs := rotate_log_file cfg fs log_path stamp flt in
  let line := log_line timestamp event ip mac in
  let fs :=
    match append_step flt with
    | AppendWorks => append_file log_path line fs
    | AppendOpenFails => fs
    | AppendWriteFails written =>
        append_file log_path (Re.take written line) fs
    end in
  (fs, db_message timestamp event ip mac).

(** ** [normalize_subnet] *)

Definition normalize_subnet (subnet : option string) : option string :=
  match subnet with
  | None => None
  | Some EmptyString => None
  | Some subnet =>
      let subnet :=
        if Str.contains "/" subnet then hd EmptyString (Str.split "/" subnet)
        else subnet in
      let parts := Str.split "." subnet in
      if Nat.leb 3 (length parts) then Some (Str.join "." (take 3 parts))
      else if Nat.eqb (length parts) 1 then Some subnet
      else None
  end.

(** ** Reconciliation

    [set(d.keys())] is a [gset]; the order in which a [for] loop visits a
    Python set is not fixed by the language (it follows the string hashes,
    which change from run to run), so it is a parameter of the model: any
    enumeration of the set without repetition. *)

Class SetOrder := {
  set_iter : gset pykey → list pykey;
  set_iter_perm : ∀ s, set_iter s ≡ₚ elements s
}.

Inductive event_kind :=
| VERBUNDEN
| GETRENNT.

#[global] Instance event_kind_eq_dec : EqDecision event_kind.
Proof. solve_decision. Defined.

(** One call [append_log(log_path, kind, ip, mac)]. *)
Record event := { ev_kind : event_kind; ev_ip : pykey; ev_mac : pyval }.

(** [device_info.get("mac", "UNKNOWN")]; [None] when [device_info] has no
    [get] ([AttributeError]). *)
Definition mac_of (device_info : pyval) : option pyval :=
  match device_info with
  | PDict f => Some (default (PStr "UNKNOWN") (Dict.get (KStr "mac") f))
  | _ => None
  end.

(** One of the two [for ip in ...] loops: the calls made, and whether the
    loop ran to its end ([false]: an exception cut it short). *)
Fixpoint emit (kind : event_kind) (devices : list (pykey * pyval))
    (ips : list pykey) : list event * bool :=
  match ips with
  | [] => ([], true)
  | ip :: rest =>
      let device_info := default (PDict []) (Dict.get ip devices) in
      match mac_of device_info with
      | Some m =>
          let '(evs, ok) := emit kind devices rest in
          ({| ev_kind := kind; ev_ip := ip; ev_mac := m |} :: evs, ok)
      | None => ([], false)
      end
  end.

Definition joined `{SetOrder} (current prev_devices : list (pykey * pyval))
  : list pykey :=
  set_iter (list_to_set (Dict.keys current)
            ∖ list_to_set (Dict.keys prev_devices)).

Definition left `{SetOrder} (current prev_devices : list (pykey * pyval))
  : list pykey :=
  set_iter (list_to_set (Dict.keys prev_devices)
            ∖ list_to_set (Dict.keys current)).

(** Lines 422-436 of [run_monitor]: the [append_log] calls of one cycle in
    the order they are made, and whether the code reached [save_state]. *)
Definition reconcile `{SetOrder} (current : DeviceSet) (previous : pyval)
  : list event * bool :=
  match previous with
  | PDict top =>
      match default (PDict []) (Dict.get (KStr "devices") top) with
      | PDict prev_devices =>
          let cur := devices_items current in
          let '(evs_j, ok_j) := emit VERBUNDEN cur (joined cur prev_devices) in
          if ok_j then
            let '(evs_l, ok_l) :=
              emit GETRENNT prev_devices (left cur prev_devices) in
            (evs_j ++ evs_l, ok_l)
          else (evs_j, false)
      | _ => ([], false)
      end
  | _ => ([], false)
  end.

(** ** Scan loop *)

Inductive sink_msg :=
| Started
| Heartbeat
| Warning (n : nat)
| Stopped.

(** The text handed to [write_to_database]. *)
Definition render (m : sink_msg) (timestamp : string) : string :=
  match m with
  | Started => "gestartet"
  | Heartbeat => "ich bin noch aktiv"
  | Warning n =>
      "Warnung: " +:+ pretty n +:+ " aufeinanderfolgende Fehler beim Speichern"
  | Stopped => "beendet"
  end +:+ " [" +:+ timestamp +:+ "]".

(** What a cycle does to the outside: [append_log] calls and sink writes. *)
Inductive action :=
| Emit (e : event)
| Sink (m : sink_msg) (timestamp : string).

Record loop_state := {
  consecutive_errors : nat;
  last_heartbeat_hour : Z;
  scan_count : nat;
  store : gmap Path content;
  running : bool
}.

(** What one pass of the [while True] body meets: the result of
    [discover_devices], the clock, the fate of the save and whether
    Ctrl-C arrives at the sleep the pass comes to: the one of line 474
    after the save, or the one of the exception handler in a pass that
    raised before. *)
Record cycle_env := {
  scanned : DeviceSet;
  iso : string;
  timestamp : string;
  hour : Z;
  fault : io_fault;
  interrupt : bool
}.

Definition max_consecutive_errors : nat := 10.

(** [time.sleep(secs)] raises on a negative length ([ValueError]) and on
    one that the clock type of C cannot hold ([OverflowError]; the bound is
    that of 64-bit nanoseconds). *)
Definition sleep_raises (secs : Z) : bool :=
  (secs <? 0)%Z || (2 ^ 63 - 1 <? secs * 10 ^ 9)%Z.

(** One pass.  [scan_interval] is read from the configuration when the
    pass comes to its sleep, as [main] has set it from [--interval]. *)
Definition cycle `{SetOrder} (cfg : Config) (state_path : Path) (once : bool)
    (env : cycle_env) (st : loop_state) : loop_state * list action :=
  let current := scanned env in
  let previous := load_state (store st) state_path (iso env) in
  match reconcile current previous with
  | (evs, false) =>
      (* except Exception: count, sleep (for 10 seconds when the interval
         is refused); Ctrl-C in this sleep escapes *)
      ({| consecutive_errors := S (consecutive_errors st);
          last_heartbeat_hour := last_heartbeat_hour st;
          scan_count := scan_count st;
          store := store st;
          running := negb (interrupt env) |},
       Emit <$> evs)
  | (evs, true) =>
      let '(saved, store') :=
        save_state (store st) state_path current (iso env) (fault env) in
      let errors := if saved then 0 else S (consecutive_errors st) in
      let beat := negb (Z.eqb (hour env) (last_heartbeat_hour st)) in
      let warn := Nat.leb max_consecutive_errors errors in
      let errors := if warn then 0 else errors in
      let stop := negb once && interrupt env in
      (* the sleep of line 474 is inside the [try]: Ctrl-C there is
         caught and ends the loop; otherwise, when [time.sleep] refuses
         the interval, [except Exception] counts the pass as one more
         error and sleeps for 10 seconds instead *)
      let sleep_error :=
        negb once && negb (interrupt env)
        && sleep_raises (scan_interval cfg) in
      ({| consecutive_errors := if sleep_error then S errors else errors;
          last_heartbeat_hour :=
            if beat then hour env else last_heartbeat_hour st;
          scan_count := S (scan_count st);
          store := store';
          running := negb once && negb (interrupt env) |},
       (Emit <$> evs)
       ++ (if beat then [Sink Heartbeat (timestamp env)] else [])
       ++ (if warn then [Sink (Warning max_consecutive_errors)
                           (timestamp env)] else [])
       ++ (if stop then [Sink Stopped (timestamp env)] else []))
  end.

(** The [while True] loop over the passes the environment allows. *)
Fixpoint run_loop `{SetOrder} (cfg : Config) (state_path : Path)
    (once : bool) (envs : list cycle_env) (st : loop_state)
  : loop_state * list action :=
  match envs with
  | [] => (st, [])
  | env :: rest =>
      if running st then
        let '(st1, t1) := cycle cfg state_path once env st in
        let '(st2, t2) := run_loop cfg state_path once rest st1 in
        (st2, t1 ++ t2)
      else (st, [])
  end.

(** [a or b] on optional strings. *)
Definition str_or (a : option string) (b : option string) : option string :=
  match a with
  | Some (String _ _) => a
  | _ => b
  end.

(** [run_monitor]: [network_info] is the base [get_network_info] finds,
    [start] the clock at start-up.  [None]: no subnet, nothing is run. *)
Definition run_monitor `{SetOrder} (cfg : Config) (base_path : string)
    (subnet_arg : option string) (once : bool) (network_info : option string)
    (start_timestamp : string) (start_hour : Z) (files : gmap Path content)
    (envs : list cycle_env) : option (loop_state * list action) :=
  let state_path := {| parent := base_path; name := state_file cfg |} in
  let subnet_base := normalize_subnet (str_or subnet_arg (Some (subnet cfg))) in
  let subnet_base :=
    match subnet_base with
    | Some (String _ _) => subnet_base
    | _ => normalize_subnet network_info
    end in
  match subnet_base with
  | Some (String _ _) =>
      let st := {| consecutive_errors := 0;
                   last_heartbeat_hour := start_hour;
                   scan_count := 0;
                   store := files;
                   running := true |} in
      let '(st', t) := run_loop cfg state_path once envs st in
      Some (st', Sink Started start_timestamp :: t)
  | _ => None
  end.

(** ** Network information and the sweep *)

(** [re.search]: the groups of the leftmost match. *)
Fixpoint re_search (r : Re.regex) (s : string) : option (list string) :=
  match Re.match_at r s with
  | Some (_, caps) => Some caps
  | None =>
      match s with
      | EmptyString => None
      | String _ s' => re_search r s'
      end
  end.

(** [(\d{1,3}\.\d{1,3}\.\d{1,3})\.\d{1,3}] *)
Definition ip_pattern : Re.regex :=
  Re.Cat
    (Re.Group
       (Re.Cat octet (Re.Cat (Re.chr ".")
       (Re.Cat octet (Re.Cat (Re.chr ".") octet)))))
    (Re.Cat (Re.chr ".") octet).

(** [get_network_info]: [output] is what [ipconfig] or [ip addr show]
    printed, [None] when running it raised.  The result is the pair
    (subnet, base). *)
Definition get_network_info (output : option string)
  : option string * option string :=
  match output with
  | None => (None, None)
  | Some text =>
      match re_search ip_pattern text with
      | Some m =>
          let base := nth 0 m EmptyString in
          (Some (base +:+ ".0"), Some base)
      | None => (None, None)
      end
  end.

(** [[f"{subnet_base}.{i}" for i in range(1, 255)]] *)
Definition ping_targets (subnet_base : string) : list string :=
  (λ i : nat, subnet_base +:+ "." +:+ pretty i) <$> seq 1 254.

(** [discover_devices]: every target is pinged and the answers are thrown
    away; a pool that cannot be built ([max_workers] of 0 is a
    [ValueError]) ends the sweep with nothing, otherwise the result is the
    neighbour table read afterwards. *)
Definition discover_devices (cfg : Config) (subnet_base : string)
    (ping_host : string → bool) (arp_output : option string)
    (now : nat → string) : DeviceSet :=
  if Nat.eqb (ping_workers cfg) 0 then []
  else
    let _ := ping_host <$> ping_targets subnet_base in
    scan_arp_table arp_output now.

(** * Vocabulary of the statements *)

Local Open Scope nat_scope.

(** ** Strings and patterns *)

(** The text before the first [c]: all of [s] when [c] does not occur. *)
Fixpoint text_before (c : ascii) (s : string) : string :=
  match s with
  | EmptyString => EmptyString
  | String a s' =>
      if Ascii.eqb a c then EmptyString else String a (text_before c s')
  end.

(** What a successful match consumes and captures, read off the
    expression. *)
Inductive re_matches :
  Re.regex → string → list string → string → list string → Prop :=
| matches_rep cls lo hi s caps n :
    lo ≤ n → n ≤ Re.run cls hi s →
    re_matches (Re.Rep cls lo hi) s caps (Re.drop n s) caps
| matches_cat r1 r2 s caps s1 caps1 s2 caps2 :
    re_matches r1 s caps s1 caps1 → re_matches r2 s1 caps1 s2 caps2 →
    re_matches (Re.Cat r1 r2) s caps s2 caps2
| matches_group r s caps s1 caps1 :
    re_matches r s caps s1 caps1 →
    re_matches (Re.Group r) s caps s1
      (caps1 ++ [Re.take (String.length s - String.length s1) s]).

(** A clock that reads [T0], [T1], ... in the passes of a loop. *)
Definition ticks (i : nat) : string := "T" +:+ pretty i.

(** ** Reconciliation *)

(** [isinstance(v, dict)] *)
Definition is_dict (v : pyval) : Prop := ∃ f, v = PDict f.

(** A snapshot as the data model has it: a dictionary whose ["devices"]
    entry (when present) is a dictionary of dictionaries. *)
Definition snapshot_devices (previous : pyval)
    (prev_devices : list (pykey * pyval)) : Prop :=
  ∃ top, previous = PDict top
         ∧ default (PDict []) (Dict.get (KStr "devices") top)
           = PDict prev_devices
         ∧ Forall (λ e, is_dict e.2) prev_devices.

(** The call [append_log] receives for [ip]. *)
Definition event_for (kind : event_kind) (devices : list (pykey * pyval))
    (ip : pykey) : event :=
  {| ev_kind := kind; ev_ip := ip;
     ev_mac := default (PStr "UNKNOWN")
                 (mac_of (default (PDict []) (Dict.get ip devices))) |}.

(** The IPs of the events of one kind, in the order of the calls. *)
Definition ips_of (kind : event_kind) (evs : list event) : list pykey :=
  ev_ip <$> filter (λ e, ev_kind e = kind) evs.

(** The order [elements] lists a set in: one possible iteration order. *)
Definition elements_order : SetOrder :=
  {| set_iter := elements; set_iter_perm := λ s, reflexivity _ |}.

(** Two scans: 192.168.1.5 alone, and with 192.168.1.9. *)
Definition two_devices : DeviceSet :=
  [("192.168.1.5", {| mac := "00:11:22:33:44:55"; last_seen := "T1" |});
   ("192.168.1.9", {| mac := "66:77:88:99:AA:BB"; last_seen := "T1" |})].

Definition one_device : DeviceSet :=
  [("192.168.1.5", {| mac := "00:11:22:33:44:55"; last_seen := "T0" |})].

(** The order of [sorted] on IP strings. *)
Definition ip_le (a b : pykey) : Prop :=
  match a, b with
  | KStr s, KStr t => Str.leb s t = true
  | _, _ => True
  end.

#[global] Instance ip_le_dec a b : Decision (ip_le a b).
Proof. destruct a, b; simpl; apply _. Defined.

(** An iteration order that visits larger IPs first. *)
Definition descending_order : SetOrder :=
  {| set_iter := λ s, merge_sort (flip ip_le) (elements s);
     set_iter_perm := λ s, merge_sort_Permutation (flip ip_le) (elements s) |}.

(** ** State store *)

Definition state_path : Path :=
  {| parent := "."; name := state_file CONFIG |}.

(** The devices mapping of the old schema: every value is a dictionary
    with an ["ip"] string and a ["last_seen"] field. *)
Definition legacy_item (e : pykey * pyval) : Prop :=
  ∃ f ip seen,
    e.2 = PDict f
    ∧ Dict.get (KStr "ip") f = Some (PStr ip)
    ∧ Dict.get (KStr "last_seen") f = Some seen.

(** The entry the migration stores for one old item. *)
Definition migrated (mac : pykey) (seen : pyval) : pyval :=
  PDict [(KStr "mac", key_value mac); (KStr "last_seen", seen)].

(** The legacy example: one device under its link address. *)
Definition legacy_file : pyval :=
  PDict [(KStr "devices",
          PDict [(KStr "AA:BB:CC:DD:EE:FF",
                  PDict [(KStr "ip", PStr "10.0.0.5");
                         (KStr "last_seen", PStr "T")])]);
         (KStr "last_scan", PStr "T")].

(** The same device in a file that is the MAC-keyed mapping itself,
    without the ["devices"] key around it. *)
Definition bare_legacy_items : list (pykey * pyval) :=
  [(KStr "AA:BB:CC:DD:EE:FF",
    PDict [(KStr "ip", PStr "10.0.0.5"); (KStr "last_seen", PStr "T")])].

(** ** Event sink *)

Definition log_path : Path := {| parent := "."; name := log_file CONFIG |}.

(** A text of [n] bytes. *)
Fixpoint filler (n : nat) : string :=
  match n with
  | 0 => EmptyString
  | S n' => String "x" (filler n')
  end.

(** ** Scan loop *)

Definition is_warning (a : action) : bool :=
  match a with
  | Sink (Warning _) _ => true
  | _ => false
  end.

(** How many warnings a trace holds. *)
Definition warnings (t : list action) : nat :=
  length (List.filter is_warning t).

(** The state file loads as a well-formed snapshot, so that a cycle gets
    as far as [save_state]. *)
Definition loads_ok (fs : gmap Path content) (path : Path) : Prop :=
  ∀ now,
    ∃ prev_devices, snapshot_devices (load_state fs path now) prev_devices.

(** The loop at its start, with no state file yet. *)
Definition start_state : loop_state :=
  {| consecutive_errors := 0; last_heartbeat_hour := 12; scan_count := 0;
     store := ∅; running := true |}.

(** A pass at noon that sees one device and whose save meets [flt]. *)
Definition pass (flt : io_fault) : cycle_env :=
  {| scanned := one_device; iso := "2024-01-31T12:00:00";
     timestamp := "2024-01-31 12:00:00"; hour := 12; fault := flt;
     interrupt := false |}.

(** The same pass in the hour [h]. *)
Definition pass_at (h : Z) : cycle_env :=
  {| scanned := one_device; iso := "2024-01-31T12:00:00";
     timestamp := "2024-01-31 12:00:00"; hour := h; fault := NoFault;
     interrupt := false |}.

(** The configuration that [--interval -1] leaves. *)
Definition negative_interval : Config := {|
  scan_interval := -1;
  state_file := "wlan_status.json";
  log_file := "wlan_connection_log.txt";
  subnet := "192.168.178.0";
  max_log_size_kb := 500;
  ping_workers := 50;
  ping_timeout := 2
|}.

(** A state file that no [save_state] wrote: the entry of 10.0.0.9 is
    not a dictionary. *)
Definition odd_file : pyval :=
  PDict [(KStr "devices", PDict [(KStr "10.0.0.9", PStr "?")]);
         (KStr "last_scan", PNone)].

(** A pass that sees 10.0.0.9 and whose save meets [flt]. *)
Definition pass_seeing_9 (flt : io_fault) : cycle_env :=
  {| scanned := [("10.0.0.9",
                  {| mac := "00:11:22:33:44:55"; last_seen := "T1" |})];
     iso := "2024-01-31T12:00:00"; timestamp := "2024-01-31 12:00:00";
     hour := 12; fault := flt; interrupt := false |}.

(** ** Shapes of text *)

(** Every character of [s] is in the class [p]. *)
Fixpoint all_chars (p : ascii → bool) (s : string) : bool :=
  match s with
  | EmptyString => true
  | String a s' => p a && all_chars p s'
  end.

(** The words an expression can consume. *)
Fixpoint re_lang (r : Re.regex) (w : string) : Prop :=
  match r with
  | Re.Rep cls lo hi =>
      all_chars cls w = true ∧ lo ≤ String.length w
      ∧ ∀ h, hi = Some h → String.length w ≤ h
  | Re.Cat r1 r2 => ∃ w1 w2, w = w1 +:+ w2 ∧ re_lang r1 w1 ∧ re_lang r2 w2
  | Re.Group r1 => re_lang r1 w
  end.

(** One to three digits. *)
Definition octet_text (w : string) : Prop :=
  all_chars Re.digit w = true ∧ 1 ≤ String.length w ≤ 3.

(** A digit, a letter A-F or a colon. *)
Definition upper_hex (a : ascii) : bool :=
  Str.in_range 48 57 a || Str.in_range 65 70 a || Ascii.eqb a ":".

(** How often [c] occurs in [s]. *)
Fixpoint count_char (c : ascii) (s : string) : nat :=
  match s with
  | EmptyString => 0
  | String a s' => (if Ascii.eqb a c then 1 else 0) + count_char c s'
  end.

(** The expression has no capturing group. *)
Fixpoint no_group (r : Re.regex) : bool :=
  match r with
  | Re.Rep _ _ _ => true
  | Re.Cat r1 r2 => no_group r1 && no_group r2
  | Re.Group _ => false
  end.

(** [a.b.c.d] with four octets. *)
Definition dotted_quad (ip : string) : Prop :=
  ∃ a b c e,
    ip = Str.join "." [a; b; c; e] ∧ Str.split "." ip = [a; b; c; e]
    ∧ Forall octet_text [a; b; c; e].

(** [a.b.c] with three octets. *)
Definition dotted_triple (base : string) : Prop :=
  ∃ a b c,
    base = Str.join "." [a; b; c] ∧ Str.split "." base = [a; b; c]
    ∧ Forall octet_text [a; b; c].

(** An item of a devices mapping that is a dictionary whose ["ip"], when
    it has one, is a string: an item of the old or of the new schema. *)
Definition old_or_new_item (e : pykey * pyval) : Prop :=
  ∃ f, e.2 = PDict f
       ∧ (Dict.get (KStr "ip") f = None
          ∨ ∃ ip, Dict.get (KStr "ip") f = Some (PStr ip)).

(** A value that [json.dump] and [json.load] give back as it is: every
    key of every dictionary in it is a string ([json.dump] writes any other
    key as a string, which is what [json.load] then reads). *)
Fixpoint json_exact (v : pyval) : bool :=
  match v with
  | PList l => forallb json_exact l
  | PDict d =>
      forallb (λ e, match e with
                    | (KStr _, v') => json_exact v'
                    | _ => false
                    end) d
  | _ => true
  end.

(** ** Traces of the scan loop *)

(** The [append_log] calls of a trace, in order. *)
Definition events_of (t : list action) : list event :=
  omap (λ a, match a with Emit e => Some e | Sink _ _ => None end) t.

(** How many sink writes of a trace satisfy [p]. *)
Definition sinks (p : sink_msg → bool) (t : list action) : nat :=
  length (List.filter (λ a, match a with
                            | Sink m _ => p m
                            | Emit _ => false
                            end) t).

Definition is_heartbeat (m : sink_msg) : bool :=
  match m with Heartbeat => true | _ => false end.

Definition is_stopped (m : sink_msg) : bool :=
  match m with Stopped => true | _ => false end.

(** How often the hour changes along [hours], starting from [last]. *)
Fixpoint hour_changes (last : Z) (hours : list Z) : nat :=
  match hours with
  | [] => 0
  | h :: rest => (if Z.eqb h last then 0 else 1) + hour_changes h rest
  end.

(** The events of a run whose state file holds the scan [ref] saved at
    [ref_time]: each pass is compared with the last scan that was saved,
    and a pass whose save fails does not change what is saved. *)
Fixpoint expected_events `{SetOrder} (ref : DeviceSet) (ref_time : string)
    (envs : list cycle_env) : list event :=
  match envs with
  | [] => []
  | env :: rest =>
      (reconcile (scanned env) (snapshot ref ref_time)).1
      ++ match fault env with
         | NoFault => expected_events (scanned env) (iso env) rest
         | _ => expected_events ref ref_time rest
         end
  end.

(** A snapshot on which the reconciliation raises before any event: not a
    dictionary, or its ["devices"] entry is not one. *)
Definition unusable_snapshot (previous : pyval) : Prop :=
  match previous with
  | PDict top =>
      match default (PDict []) (Dict.get (KStr "devices") top) with
      | PDict _ => False
      | _ => True
      end
  | _ => True
  end.


(** * Properties *)

(** ** Strings *)

Module StrFacts.

Lemma length_map f s : String.length (Str.map f s) = String.length s.
Proof. induction s as [|a s IH]; simpl; [done | by rewrite IH]. Qed.

Lemma length_app (s t : string) :
  String.length (s +:+ t) = String.length s + String.length t.
Proof. induction s as [|a s IH]; simpl; [done | by rewrite IH]. Qed.

Lemma app_cons a (s t : string) : String a s +:+ t = String a (s +:+ t).
Proof. reflexivity. Qed.

Lemma app_empty_r (s : string) : s +:+ EmptyString = s.
Proof.
  induction s as [|a s IH]; [done |]. by rewrite app_cons, IH.
Qed.

Lemma split_nonempty sep s : Str.split sep s ≠ [].
Proof.
  destruct s as [|a s]; simpl; [done |].
  destruct (Ascii.eqb a sep); [done |].
  by destruct (Str.split sep s).
Qed.

Lemma hd_split c s : hd EmptyString (Str.split c s) = text_before c s.
Proof.
  induction s as [|a s IH]; simpl; [done |].
  destruct (Ascii.eqb a c); [done |].
  destruct (Str.split c s) as [|p ps] eqn:E; simpl in *.
  - by destruct (split_nonempty c s).
  - by rewrite IH.
Qed.

Lemma before_no_sep c s : Str.contains c s = false → text_before c s = s.
Proof.
  induction s as [|a s IH]; simpl; [done |].
  destruct (Ascii.eqb a c); [done |]. intros H. by rewrite IH.
Qed.

End StrFacts.

(** ** [normalize_subnet] *)

Example normalize_subnet_default :
  normalize_subnet (Some "192.168.178.0") = Some "192.168.178".
Proof. reflexivity. Qed.

Example normalize_subnet_cidr :
  normalize_subnet (Some "10.0.0.0/24") = Some "10.0.0".
Proof. reflexivity. Qed.

Example normalize_subnet_two : normalize_subnet (Some "192.168") = None.
Proof. reflexivity. Qed.

Example normalize_subnet_slash_first :
  normalize_subnet (Some "1/2.3") = Some "1".
Proof. reflexivity. Qed.

(** What [normalize_subnet] computes on a non-empty string, in terms of the
    text before the first slash. *)
Lemma normalize_subnet_unfold s :
  s ≠ EmptyString →
  normalize_subnet (Some s) =
    let parts := Str.split "." (text_before "/" s) in
    if Nat.leb 3 (length parts) then Some (Str.join "." (take 3 parts))
    else if Nat.eqb (length parts) 1 then Some (text_before "/" s)
    else None.
Proof.
  intros Hs. destruct s as [|a s]; [done |].
  unfold normalize_subnet.
  destruct (Str.contains "/" (String a s)) eqn:E.
  - by rewrite StrFacts.hd_split.
  - by rewrite (StrFacts.before_no_sep _ _ E).
Qed.

(** C10, as the code has it: for a non-empty input, with [t] the input cut
    before its first slash ([t] is the input itself when it has no slash),
    the result is [None] when [t] has exactly two dot-separated parts, [t]
    when it has one, and the first three parts joined by dots when it has
    three or more.  The empty string gives [None]. *)
Theorem normalize_subnet_by_parts (s : string) :
  s ≠ EmptyString →
  let t := text_before "/" s in
  let parts := Str.split "." t in
  (Str.contains "/" s = false → t = s)
  ∧ (length parts = 2 → normalize_subnet (Some s) = None)
  ∧ (length parts = 1 → normalize_subnet (Some s) = Some t)
  ∧ (3 ≤ length parts →
     normalize_subnet (Some s) = Some (Str.join "." (take 3 parts)))
  ∧ normalize_subnet (Some EmptyString) = None
  ∧ normalize_subnet None = None.
Proof.
  intros Hs t parts. rewrite (normalize_subnet_unfold s Hs).
  fold t. fold parts. cbv zeta.
  split; [apply StrFacts.before_no_sep |].
  split; [by intros -> |].
  split; [by intros -> |].
  split; [| done].
  intros H. by rewrite (proj2 (Nat.leb_le 3 (length parts)) H).
Qed.

Lemma normalize_subnet_by_parts_witness :
  "192.168.178.0/24" ≠ EmptyString
  ∧ normalize_subnet (Some "192.168.178.0/24") = Some "192.168.178".
Proof.
  assert (Hs : "192.168.178.0/24" ≠ EmptyString) by discriminate.
  split; [exact Hs |].
  destruct (normalize_subnet_by_parts "192.168.178.0/24" Hs)
    as (_ & _ & _ & H3 & _).
  apply H3. vm_compute. lia.
Defined.

(** C10 as written fails: the empty string has a single dot-separated part
    and is not returned unchanged, and neither is a single part that
    carries a slash. *)
Lemma normalize_subnet_single_part_not_unchanged :
  ¬ (∀ s : string,
       length (Str.split "." s) = 1 → normalize_subnet (Some s) = Some s).
Proof. intros H. by specialize (H EmptyString eq_refl). Qed.

Example normalize_subnet_drops_slash :
  length (Str.split "." "10/8") = 1
  ∧ normalize_subnet (Some "10/8") = Some "10".
Proof. by split. Qed.

(** ** Dictionaries *)

Module DictFacts.
Section dict.
Context {K V : Type} `{EqDecision K}.
Implicit Types (k : K) (v : V) (d : list (K * V)).

Lemma elem_of_set k v d e :
  e ∈ Dict.set k v d → e ∈ d ∨ e = (k, v).
Proof.
  induction d as [|[k' v'] d IH]; simpl.
  - intros ->%list_elem_of_singleton. by right.
  - case_decide as Hk.
    + intros [->|He]%elem_of_cons; subst; [by right | left; by right].
    + intros [->|He]%elem_of_cons; [left; by left |].
      destruct (IH He); [left; by right | by right].
Qed.

Lemma get_set_eq k v d : Dict.get k (Dict.set k v d) = Some v.
Proof.
  induction d as [|[k' v'] d IH]; simpl.
  - by rewrite decide_True.
  - case_decide as Hk; simpl; [by rewrite decide_True |].
    by rewrite decide_False.
Qed.

Lemma get_set_ne k k' v d :
  k ≠ k' → Dict.get k' (Dict.set k v d) = Dict.get k' d.
Proof.
  intros Hne. induction d as [|[k1 v1] d IH]; simpl.
  - by rewrite decide_False.
  - case_decide as Hk; simpl.
    + subst k1. by rewrite !decide_False.
    + case_decide; [done | apply IH].
Qed.

Lemma get_Some_elem k v d : Dict.get k d = Some v → (k, v) ∈ d.
Proof.
  induction d as [|[k' v'] d IH]; simpl; [done |].
  case_decide as Hk.
  - intros [= ->]. subst. by left.
  - intros Hg. right. by apply IH.
Qed.

Lemma get_is_Some k d : is_Some (Dict.get k d) ↔ k ∈ Dict.keys d.
Proof.
  unfold Dict.keys. induction d as [|[k' v'] d IH]; simpl.
  - split; [by intros [? ?] | by intros ?%elem_of_nil].
  - case_decide as Hk.
    + subst. split; [intros _; by left | by eauto].
    + rewrite IH. split; [by right |].
      by intros [?|?]%elem_of_cons.
Qed.

Lemma get_None k d : Dict.get k d = None ↔ k ∉ Dict.keys d.
Proof. rewrite <- get_is_Some. by rewrite eq_None_not_Some. Qed.

(** On a dictionary without repeated keys, the items are what [get]
    finds. *)
Lemma elem_get k v d :
  NoDup (Dict.keys d) → (k, v) ∈ d → Dict.get k d = Some v.
Proof.
  unfold Dict.keys. induction d as [|[k' v'] d IH]; simpl.
  - by intros _ ?%elem_of_nil.
  - intros [Hnotin Hnd]%NoDup_cons [[= -> ->]|Hin]%elem_of_cons.
    + by rewrite decide_True.
    + case_decide as Hk; [| by apply IH].
      subst k'. destruct Hnotin. apply list_elem_of_fmap. by exists (k, v).
Qed.

End dict.
End DictFacts.

(** ** Regular expressions *)

Module ReFacts.
Import Re.

Lemma backtrack_sound {R} (k : string → option R) s lo n res :
  backtrack k s lo n = Some res →
  ∃ m, lo ≤ m ∧ m ≤ n ∧ k (drop m s) = Some res.
Proof.
  induction n as [|n IH]; cbn [backtrack].
  - destruct (Nat.ltb_spec 0 lo) as [|Hlo]; [done |].
    destruct (k (drop 0 s)) eqn:Hk; [| done].
    intros [= ->]. exists 0. by rewrite Hk.
  - destruct (Nat.ltb_spec (S n) lo) as [|Hlo]; [done |].
    destruct (k (drop (S n) s)) eqn:Hk.
    + intros [= ->]. exists (S n). by rewrite Hk.
    + intros (m & ? & ? & ?)%IH. exists m. repeat split; [done | lia | done].
Qed.

Lemma rmatch_sound {R} r s caps (k : string → list string → option R) res :
  rmatch r s caps k = Some res →
  ∃ s1 caps1, re_matches r s caps s1 caps1 ∧ k s1 caps1 = Some res.
Proof.
  revert s caps k.
  induction r as [cls lo hi|r1 IH1 r2 IH2|r IH]; intros s caps k; simpl.
  - intros (m & ? & ? & ?)%backtrack_sound.
    exists (drop m s), caps. split; [by constructor | done].
  - intros (s1 & caps1 & H1 & (s2 & caps2 & H2 & Hk)%IH2)%IH1.
    exists s2, caps2. split; [by econstructor | done].
  - intros (s1 & caps1 & H1 & Hk)%IH.
    eexists _, _. split; [by constructor | done].
Qed.

Lemma run_le_length cls hi s : run cls hi s ≤ String.length s.
Proof.
  revert hi. induction s as [|a s IH]; intros hi; simpl; [done |].
  destruct hi as [[|h]|]; [lia | |]; destruct (cls a); simpl;
    try lia; specialize (IH (pred <$> Some (S h))) || specialize (IH None);
    simpl in *; lia.
Qed.

Lemma run_le_cap cls h s : run cls (Some h) s ≤ h.
Proof.
  revert h. induction s as [|a s IH]; intros h; simpl; [lia |].
  destruct h as [|h]; [done |]. destruct (cls a); [| lia].
  specialize (IH h). simpl. lia.
Qed.

Lemma length_drop n s :
  String.length (drop n s) = String.length s - n.
Proof.
  revert s. induction n as [|n IH]; intros [|a s]; simpl; by auto.
Qed.

Lemma length_take n s :
  n ≤ String.length s → String.length (take n s) = n.
Proof.
  revert s. induction n as [|n IH]; intros [|a s]; simpl; try done; try lia.
  intros ?. rewrite IH; lia.
Qed.

(** A group around [cls{n,n}] captures exactly [n] characters. *)
Lemma matches_group_exact cls n s caps s1 caps1 :
  re_matches (Group (Rep cls n (Some n))) s caps s1 caps1 →
  ∃ c, caps1 = caps ++ [c] ∧ String.length c = n.
Proof.
  inversion 1 as [| |? ? ? ? ? Hrep]; subst.
  inversion Hrep as [? ? ? ? ? m Hlo Hhi| |]; subst.
  eexists; split; [done |].
  pose proof (run_le_cap cls n s). pose proof (run_le_length cls (Some n) s).
  rewrite length_drop.
  replace (String.length s - (String.length s - m)) with n by lia.
  apply length_take. lia.
Qed.

Lemma matches_rep_caps cls lo hi s caps s1 caps1 :
  re_matches (Rep cls lo hi) s caps s1 caps1 → caps1 = caps.
Proof. by inversion 1. Qed.

(** Every item [finditer] yields is the groups of a match at some place
    of the text. *)
Lemma finditer_from_match r skip s caps :
  caps ∈ finditer_from r skip s →
  ∃ s' len, match_at r s' = Some (len, caps).
Proof.
  revert skip. induction s as [|a s IH]; intros skip; simpl.
  - destruct skip; [| by intros ?%elem_of_nil].
    destruct (match_at r EmptyString) as [[len c]|] eqn:E;
      [| by intros ?%elem_of_nil].
    intros ->%list_elem_of_singleton. eauto.
  - destruct skip as [|n]; [| apply IH].
    destruct (match_at r (String a s)) as [[len c]|] eqn:E; [| apply IH].
    intros [->|Hin]%elem_of_cons; [eauto | by eapply IH].
Qed.

End ReFacts.

(** ** Neighbour table reader *)

Example scan_sample :
  scan_arp_table (Some arp_sample) ticks
  = [("192.168.1.1", {| mac := "00:11:22:33:44:55"; last_seen := "T0" |})].
Proof. vm_compute. reflexivity. Qed.

(** A match of [arp_pattern] has two groups, the second of 17
    characters. *)
Lemma arp_pattern_groups s len caps :
  Re.match_at arp_pattern s = Some (len, caps) →
  ∃ ip raw, caps = [ip; raw] ∧ String.length raw = 17.
Proof.
  unfold Re.match_at.
  intros (s1 & caps1 & Hm & [= <- <-])%ReFacts.rmatch_sound.
  unfold arp_pattern, octet, Re.chr in Hm.
  inversion Hm as [|? ? ? ? ? ? ? ? Hip Hrest|]; subst; clear Hm.
  inversion Hip as [| |? ? ? ? ? Hoct]; subst; clear Hip.
  repeat match goal with
         | H : re_matches (Re.Cat _ _) _ _ _ _ |- _ =>
             inversion H; subst; clear H
         | H : re_matches (Re.Rep _ _ _) _ _ _ _ |- _ =>
             apply ReFacts.matches_rep_caps in H; subst
         end.
  match goal with
  | H : re_matches (Re.Group _) _ _ _ _ |- _ =>
      apply ReFacts.matches_group_exact in H as (c & -> & Hc)
  end.
  by eexists _, _.
Qed.

Lemma length_normalize_mac raw :
  String.length (normalize_mac raw) = String.length raw.
Proof.
  unfold normalize_mac, Str.replace, Str.upper.
  by rewrite !StrFacts.length_map.
Qed.

(** Every entry [scan_arp_table] returns was stored by the loop body from
    one of the matches. *)
Lemma scan_entries_from_matches (P : string → Device → Prop) now i ms :
  (∀ t m devices e,
     m ∈ ms → e ∈ scan_entry t devices m → e ∈ devices ∨ P e.1 e.2) →
  ∀ devices e, e ∈ scan_matches now i ms devices →
               e ∈ devices ∨ P e.1 e.2.
Proof.
  revert i. induction ms as [|m ms IH]; intros i Hstep devices e; simpl;
    [by left |].
  intros He. apply IH in He as [He|He]; [| by right |].
  - apply Hstep in He; [done | by left].
  - intros t m' d' e' Hm'. apply Hstep. by right.
Qed.

(** C9: an entry whose normalized link address starts with [FF:] is not
    stored, whether or not it is the broadcast address, and no device
    [scan_arp_table] returns has such an address. *)
Theorem scan_excludes_FF_prefix (output : option string)
    (now : nat → string) :
  (∀ t devices m,
     Str.startswith "FF:" (normalize_mac (nth 1 m EmptyString)) = true →
     scan_entry t devices m = devices)
  ∧ (∀ ip d, (ip, d) ∈ scan_arp_table output now →
             Str.startswith "FF:" (mac d) = false).
Proof.
  split.
  - intros t devices m Hff. unfold scan_entry. rewrite Hff.
    by rewrite andb_false_r.
  - intros ip d Hin. destruct output as [text|]; simpl in Hin;
      [| by apply elem_of_nil in Hin].
    apply (scan_entries_from_matches
             (λ _ d, Str.startswith "FF:" (mac d) = false)) in Hin
      as [Hin|Hin]; [by apply elem_of_nil in Hin | done |].
    clear. intros t m devices e _. unfold scan_entry.
    destruct (Str.startswith "FF:" (normalize_mac (nth 1 m EmptyString)))
      eqn:Hff; [rewrite andb_false_r; by left |].
    destruct (negb _ && negb false); [| by left].
    intros [He| ->]%DictFacts.elem_of_set; [by left | right]. simpl.
    by destruct (Nat.eqb _ 17).
Qed.

(** The listing of [arp -a] on Linux puts the IP in parentheses and an
    unresolved address as [<incomplete>]: nothing matches. *)
Example scan_incomplete_entry :
  scan_arp_table
    (Some ("? (192.168.1.7) at <incomplete> on eth0" +:+ nl)) ticks = [].
Proof. reflexivity. Qed.

Example scan_drops_FF_unicast :
  scan_arp_table
    (Some ("  10.0.0.9    ff-12-34-56-78-9a   dynamic" +:+ nl)) ticks = [].
Proof. reflexivity. Qed.

(** C5, what the code does: every address it stores has 17 characters, so
    none is the [UNKNOWN] mark, and an IP whose link address is malformed
    is not in the result. *)
Theorem scan_never_marks_unknown :
  (∀ output now ip d,
     (ip, d) ∈ scan_arp_table output now →
     String.length (mac d) = 17 ∧ mac d ≠ "UNKNOWN")
  ∧ scan_arp_table
      (Some ("  192.168.1.7           00-11-22-33-44     dynamic" +:+ nl))
      ticks = [].
Proof.
  split; [| reflexivity].
  intros output now ip d Hin.
  assert (String.length (mac d) = 17) as Hlen; [| split; [done |]].
  - destruct output as [text|]; simpl in Hin;
      [| by apply elem_of_nil in Hin].
    apply (scan_entries_from_matches
             (λ _ d, String.length (mac d) = 17)) in Hin
      as [Hin|Hin]; [by apply elem_of_nil in Hin | done |].
    clear. intros t m devices e Hm. unfold scan_entry.
    apply ReFacts.finditer_from_match in Hm as (s' & len & Hm).
    apply arp_pattern_groups in Hm as (ip & raw & -> & Hraw). simpl.
    destruct (negb _ && negb _); [| by left].
    intros [He| ->]%DictFacts.elem_of_set; [by left | right]. simpl.
    rewrite length_normalize_mac, Hraw, Nat.eqb_refl.
    by rewrite length_normalize_mac.
  - intros Heq. by rewrite Heq in Hlen.
Qed.

(** ** Reconciliation *)

Lemma devices_items_is_dict (D : DeviceSet) :
  Forall (λ e, is_dict e.2) (devices_items D).
Proof.
  unfold devices_items. apply Forall_fmap, Forall_forall.
  intros [ip d] _. simpl. by eexists.
Qed.

Lemma emit_ok kind devices ips :
  Forall (λ e, is_dict e.2) devices →
  emit kind devices ips = (event_for kind devices <$> ips, true).
Proof.
  intros Hd. induction ips as [|ip ips IH]; simpl; [done |].
  assert (is_dict (default (PDict []) (Dict.get ip devices))) as [f Hf].
  { destruct (Dict.get ip devices) as [v|] eqn:Hg; simpl; [| by eexists].
    apply DictFacts.get_Some_elem in Hg.
    by apply (proj1 (Forall_forall _ _) Hd) in Hg. }
  unfold event_for. rewrite Hf. simpl. by rewrite IH.
Qed.

Lemma reconcile_events `{SetOrder} current previous prev_devices :
  snapshot_devices previous prev_devices →
  reconcile current previous =
    ((event_for VERBUNDEN (devices_items current)
        <$> joined (devices_items current) prev_devices)
     ++ (event_for GETRENNT prev_devices
           <$> left (devices_items current) prev_devices), true).
Proof.
  intros (top & -> & Hdev & Hwf). unfold reconcile. rewrite Hdev.
  rewrite (emit_ok _ _ _ (devices_items_is_dict current)).
  by rewrite (emit_ok _ _ _ Hwf).
Qed.

Lemma elem_of_set_iter `{SetOrder} (s : gset pykey) ip :
  ip ∈ set_iter s ↔ ip ∈ s.
Proof. by rewrite (set_iter_perm s), elem_of_elements. Qed.

Lemma NoDup_set_iter `{SetOrder} (s : gset pykey) : NoDup (set_iter s).
Proof. rewrite (set_iter_perm s). apply NoDup_elements. Qed.

Lemma elem_of_joined `{SetOrder} cur prev ip :
  ip ∈ joined cur prev ↔ ip ∈ Dict.keys cur ∧ ip ∉ Dict.keys prev.
Proof.
  unfold joined. rewrite elem_of_set_iter, elem_of_difference.
  by rewrite !elem_of_list_to_set.
Qed.

Lemma elem_of_left `{SetOrder} cur prev ip :
  ip ∈ left cur prev ↔ ip ∈ Dict.keys prev ∧ ip ∉ Dict.keys cur.
Proof.
  unfold left. rewrite elem_of_set_iter, elem_of_difference.
  by rewrite !elem_of_list_to_set.
Qed.

Lemma ips_of_event_for kind kind' devices ips :
  ips_of kind (event_for kind' devices <$> ips)
  = if decide (kind' = kind) then ips else [].
Proof.
  unfold ips_of. induction ips as [|ip ips IH]; [by case_decide |].
  rewrite fmap_cons, filter_cons. cbn [event_for ev_kind].
  destruct (decide (kind' = kind)); [| done].
  rewrite fmap_cons. cbn [ev_ip]. by f_equal.
Qed.

Lemma ips_of_app kind evs1 evs2 :
  ips_of kind (evs1 ++ evs2) = ips_of kind evs1 ++ ips_of kind evs2.
Proof. unfold ips_of. by rewrite filter_app, fmap_app. Qed.

Lemma ev_ip_event_for kind devices (ips : list pykey) :
  ev_ip <$> (event_for kind devices <$> ips) = ips.
Proof.
  induction ips as [|ip ips IH]; [done |].
  rewrite !fmap_cons. by f_equal.
Qed.

(** C1: on a well-formed previous snapshot the cycle reaches the save, the
    IPs logged as VERBUNDEN are exactly the keys of [current] that are not
    keys of the previous devices, the IPs logged as GETRENNT exactly the
    keys of the previous devices that are not keys of [current], no IP is
    logged twice, and an IP that is a key of both has no event, whatever
    the link addresses are. *)
Theorem reconcile_by_ip_membership `{SetOrder} (current : DeviceSet)
    (previous : pyval) (prev_devices : list (pykey * pyval)) :
  snapshot_devices previous prev_devices →
  ∃ evs,
    reconcile current previous = (evs, true)
    ∧ (∀ ip, ip ∈ ips_of VERBUNDEN evs
             ↔ ip ∈ Dict.keys (devices_items current)
               ∧ ip ∉ Dict.keys prev_devices)
    ∧ (∀ ip, ip ∈ ips_of GETRENNT evs
             ↔ ip ∈ Dict.keys prev_devices
               ∧ ip ∉ Dict.keys (devices_items current))
    ∧ NoDup (ev_ip <$> evs)
    ∧ (∀ e, e ∈ evs →
            ¬ (ev_ip e ∈ Dict.keys (devices_items current)
               ∧ ev_ip e ∈ Dict.keys prev_devices)).
Proof.
  intros Hwf. eexists. split; [by apply reconcile_events |].
  set (cur := devices_items current).
  rewrite !ips_of_app, !ips_of_event_for. simpl.
  rewrite app_nil_r.
  split; [apply elem_of_joined |]. split; [apply elem_of_left |].
  split.
  - rewrite fmap_app, !ev_ip_event_for.
    apply NoDup_app. split; [apply NoDup_set_iter |].
    split; [| apply NoDup_set_iter].
    intros ip [_ Hn]%elem_of_joined [Hp _]%elem_of_left. by apply Hn.
  - intros e [He|He]%elem_of_app;
      apply list_elem_of_fmap in He as (ip & -> & Hip); simpl.
    + apply elem_of_joined in Hip. tauto.
    + apply elem_of_left in Hip. tauto.
Qed.

Lemma snapshot_devices_snapshot (D : DeviceSet) (now : string) :
  snapshot_devices (snapshot D now) (devices_items D).
Proof.
  eexists. split; [done |]. split; [done |]. apply devices_items_is_dict.
Qed.

Lemma reconcile_by_ip_membership_witness :
  snapshot_devices (snapshot one_device "T0") (devices_items one_device)
  ∧ ∃ evs,
      reconcile (H := elements_order) two_devices (snapshot one_device "T0")
      = (evs, true)
      ∧ (∀ ip, ip ∈ ips_of VERBUNDEN evs
               ↔ ip ∈ Dict.keys (devices_items two_devices)
                 ∧ ip ∉ Dict.keys (devices_items one_device))
      ∧ (∀ ip, ip ∈ ips_of GETRENNT evs
               ↔ ip ∈ Dict.keys (devices_items one_device)
                 ∧ ip ∉ Dict.keys (devices_items two_devices))
      ∧ NoDup (ev_ip <$> evs)
      ∧ (∀ e, e ∈ evs →
              ¬ (ev_ip e ∈ Dict.keys (devices_items two_devices)
                 ∧ ev_ip e ∈ Dict.keys (devices_items one_device))).
Proof.
  split; [apply snapshot_devices_snapshot |].
  apply (reconcile_by_ip_membership (H := elements_order)).
  apply snapshot_devices_snapshot.
Defined.

(** The end-to-end scenarios: one device joins, one device leaves. *)
Example reconcile_one_joined :
  reconcile (H := elements_order) two_devices (snapshot one_device "T0")
  = ([{| ev_kind := VERBUNDEN; ev_ip := KStr "192.168.1.9";
         ev_mac := PStr "66:77:88:99:AA:BB" |}], true).
Proof. vm_compute. reflexivity. Qed.

Example reconcile_one_left :
  reconcile (H := elements_order) one_device (snapshot two_devices "T0")
  = ([{| ev_kind := GETRENNT; ev_ip := KStr "192.168.1.9";
         ev_mac := PStr "66:77:88:99:AA:BB" |}], true).
Proof. vm_compute. reflexivity. Qed.

Lemma set_iter_empty `{SetOrder} : set_iter ∅ = [].
Proof.
  apply Permutation_nil. symmetry. by rewrite (set_iter_perm ∅), elements_empty.
Qed.

(** Equal key sets give no event at all. *)
Lemma same_keys_no_event `{SetOrder} current previous prev_devices :
  snapshot_devices previous prev_devices →
  list_to_set (Dict.keys (devices_items current))
    =@{gset pykey} list_to_set (Dict.keys prev_devices) →
  reconcile current previous = ([], true).
Proof.
  intros Hwf Hkeys. rewrite (reconcile_events _ _ _ Hwf).
  unfold joined, left. rewrite Hkeys, difference_diag_L.
  by rewrite set_iter_empty.
Qed.

(** A link address that changes while the IP stays is no event. *)
Lemma mac_change_no_event `{SetOrder} ip mac1 mac2 t1 t2 t :
  reconcile [(ip, {| mac := mac2; last_seen := t2 |})]
    (snapshot [(ip, {| mac := mac1; last_seen := t1 |})] t) = ([], true).
Proof.
  eapply same_keys_no_event; [apply snapshot_devices_snapshot | done].
Qed.

(** *** Order of the events *)

Example descending_joined :
  reconcile (H := descending_order) two_devices empty_snapshot
  = ([{| ev_kind := VERBUNDEN; ev_ip := KStr "192.168.1.9";
         ev_mac := PStr "66:77:88:99:AA:BB" |};
      {| ev_kind := VERBUNDEN; ev_ip := KStr "192.168.1.5";
         ev_mac := PStr "00:11:22:33:44:55" |}], true).
Proof. vm_compute. reflexivity. Qed.

(** C4 as written fails: nothing sorts the set differences, and under an
    iteration order that visits 192.168.1.9 before 192.168.1.5 the two
    VERBUNDEN events come out in that order. *)
Lemma joined_events_not_sorted :
  ¬ (∀ (order : SetOrder) (current : DeviceSet) (previous : pyval)
       (prev_devices : list (pykey * pyval)),
       snapshot_devices previous prev_devices →
       Sorted ip_le
         (ips_of VERBUNDEN (reconcile (H := order) current previous).1)
       ∧ Sorted ip_le
           (ips_of GETRENNT (reconcile (H := order) current previous).1)).
Proof.
  intros Hsorted.
  destruct (Hsorted descending_order two_devices empty_snapshot [])
    as [Hj _].
  { exists [(KStr "devices", PDict []); (KStr "last_scan", PNone)].
    by repeat split. }
  rewrite descending_joined in Hj. vm_compute in Hj.
  inversion Hj as [|? ? _ Hhd]; subst.
  inversion Hhd as [|? ? Hle]; subst.
  vm_compute in Hle. discriminate.
Qed.

(** C4, as the code has it: the VERBUNDEN events come first and the
    GETRENNT events after them, each group in the order in which the set
    difference is iterated, every IP once. *)
Theorem events_in_iteration_order `{SetOrder} (current : DeviceSet)
    (previous : pyval) (prev_devices : list (pykey * pyval)) :
  snapshot_devices previous prev_devices →
  let cur := devices_items current in
  ∃ evs,
    reconcile current previous = (evs, true)
    ∧ evs = (event_for VERBUNDEN cur <$> ips_of VERBUNDEN evs)
            ++ (event_for GETRENNT prev_devices <$> ips_of GETRENNT evs)
    ∧ ips_of VERBUNDEN evs
      = set_iter (list_to_set (Dict.keys cur)
                  ∖ list_to_set (Dict.keys prev_devices))
    ∧ ips_of GETRENNT evs
      = set_iter (list_to_set (Dict.keys prev_devices)
                  ∖ list_to_set (Dict.keys cur))
    ∧ NoDup (ips_of VERBUNDEN evs) ∧ NoDup (ips_of GETRENNT evs).
Proof.
  intros Hwf cur. eexists. split; [by apply reconcile_events |].
  fold cur. rewrite !ips_of_app, !ips_of_event_for. simpl.
  rewrite app_nil_r. repeat split; apply NoDup_set_iter.
Qed.

Lemma events_in_iteration_order_witness :
  snapshot_devices (snapshot one_device "T0") (devices_items one_device)
  ∧ ∃ evs,
      reconcile (H := descending_order) two_devices
        (snapshot one_device "T0") = (evs, true)
      ∧ evs = (event_for VERBUNDEN (devices_items two_devices)
                 <$> ips_of VERBUNDEN evs)
              ++ (event_for GETRENNT (devices_items one_device)
                    <$> ips_of GETRENNT evs)
      ∧ ips_of VERBUNDEN evs
        = set_iter (SetOrder := descending_order)
            (list_to_set (Dict.keys (devices_items two_devices))
             ∖ list_to_set (Dict.keys (devices_items one_device)))
      ∧ ips_of GETRENNT evs
        = set_iter (SetOrder := descending_order)
            (list_to_set (Dict.keys (devices_items one_device))
             ∖ list_to_set (Dict.keys (devices_items two_devices)))
      ∧ NoDup (ips_of VERBUNDEN evs) ∧ NoDup (ips_of GETRENNT evs).
Proof.
  split; [apply snapshot_devices_snapshot |].
  apply (events_in_iteration_order (H := descending_order)).
  apply snapshot_devices_snapshot.
Defined.

(** ** Paths *)

Lemma rsplit_dot_app s pre suf :
  rsplit_dot s = Some (pre, suf) → pre +:+ suf = s.
Proof.
  revert pre suf. induction s as [|a s IH]; intros pre suf; simpl; [done |].
  destruct (rsplit_dot s) as [[pre' suf']|].
  - intros [= <- <-]. change (String a (pre' +:+ suf') = String a s).
    f_equal. by apply IH.
  - destruct (Ascii.eqb a "."); [| done]. by intros [= <- <-].
Qed.

Lemma stem_suffix_app (p : Path) : stem p +:+ suffix p = name p.
Proof.
  unfold stem, suffix, stem_suffix.
  destruct (rsplit_dot (name p)) as [[pre suf]|] eqn:E; simpl.
  - destruct (_ && _); simpl; [by apply rsplit_dot_app |].
    apply StrFacts.app_empty_r.
  - apply StrFacts.app_empty_r.
Qed.

Example stem_suffix_state_file :
  stem_suffix "wlan_status.json" = ("wlan_status", ".json").
Proof. reflexivity. Qed.

(** The temporary file of [save_state] is never the target itself. *)
Lemma temp_path_ne (path temp_path : Path) :
  with_suffix path (suffix path +:+ ".tmp") = Some temp_path →
  temp_path ≠ path.
Proof.
  unfold with_suffix. destruct (String.eqb _ _); [done |].
  intros [= <-] Heq. apply (f_equal (λ p, String.length (name p))) in Heq.
  cbn [name] in Heq. rewrite <- (stem_suffix_app path) in Heq.
  rewrite !StrFacts.length_app in Heq. simpl in Heq. lia.
Qed.

Lemma backup_path_ne (log_path : Path) (stamp : string) :
  backup_path log_path stamp ≠ log_path.
Proof.
  intros Heq. apply (f_equal (λ p, String.length (name p))) in Heq.
  cbn [name backup_path] in Heq.
  rewrite <- (stem_suffix_app log_path) in Heq.
  rewrite !StrFacts.length_app in Heq. simpl in Heq. lia.
Qed.

(** ** State store *)

(** A successful [save_state] leaves the snapshot at the target and no
    temporary file. *)
Lemma save_state_true fs path devices now flt fs' :
  save_state fs path devices now flt = (true, fs') →
  flt = NoFault ∧ name path ≠ EmptyString
  ∧ fs' !! path = Some (Json (snapshot devices now))
  ∧ ∀ temp_path,
      with_suffix path (suffix path +:+ ".tmp") = Some temp_path →
      fs' !! temp_path = None.
Proof.
  unfold save_state.
  destruct (with_suffix path _) as [temp_path|] eqn:Htmp; [| done].
  pose proof (temp_path_ne _ _ Htmp) as Hne.
  assert (name path ≠ EmptyString) as Hname.
  { unfold with_suffix in Htmp. intros Hn. by rewrite Hn in Htmp. }
  destruct flt; try done. unfold replace_file.
  rewrite lookup_insert_eq. intros [= <-].
  rewrite lookup_insert_eq. repeat split; try done.
  intros tp [= <-]. rewrite lookup_insert_ne by done.
  by rewrite lookup_delete_eq.
Qed.

(** A failed [save_state] leaves the target as it was. *)
Lemma save_state_false fs path devices now flt fs' :
  save_state fs path devices now flt = (false, fs') →
  (flt ≠ NoFault ∨ name path = EmptyString) ∧ fs' !! path = fs !! path.
Proof.
  unfold save_state.
  destruct (with_suffix path _) as [temp_path|] eqn:Htmp.
  - pose proof (temp_path_ne _ _ Htmp) as Hne.
    destruct flt; try done; intros [= <-];
      rewrite ?lookup_insert_ne by done; split; try done; by left.
  - intros [= <-]. split; [right | done].
    unfold with_suffix in Htmp.
    by destruct (String.eqb_spec (name path) EmptyString).
Qed.

(** C6: [save_state] returns [True] exactly when no step failed, and then
    the target holds the whole new snapshot and the temporary file is gone;
    whenever it returns [False] the target is as it was.  So the target
    holds its old content or the complete new one, never a part. *)
Theorem save_state_atomic (fs : gmap Path content) (path : Path)
    (devices : DeviceSet) (now : string) (flt : io_fault) :
  let ok := (save_state fs path devices now flt).1 in
  let fs' := (save_state fs path devices now flt).2 in
  (ok = true ↔ flt = NoFault ∧ name path ≠ EmptyString)
  ∧ (flt ≠ NoFault → ok = false)
  ∧ (ok = true →
     fs' !! path = Some (Json (snapshot devices now))
     ∧ ∀ temp_path,
         with_suffix path (suffix path +:+ ".tmp") = Some temp_path →
         fs' !! temp_path = None)
  ∧ (ok = false → fs' !! path = fs !! path)
  ∧ (fs' !! path = fs !! path
     ∨ fs' !! path = Some (Json (snapshot devices now))).
Proof.
  destruct (save_state fs path devices now flt) as [[|] fs'] eqn:Hsave;
    simpl.
  - apply save_state_true in Hsave as (-> & Hname & Hpath & Htmp).
    repeat split; try done. by right.
  - apply save_state_false in Hsave as (Hflt & Hpath).
    repeat split; try done; [| by left].
    intros [-> Hname]. by destruct Hflt.
Qed.

Example save_state_ok :
  save_state ∅ state_path one_device "T1" NoFault
  = (true, {[ state_path := Json (snapshot one_device "T1") ]}).
Proof.
  unfold save_state, replace_file.
  cbn -[insert delete lookup empty singletonM].
  rewrite lookup_insert_eq, delete_insert_eq, delete_empty.
  by rewrite insert_empty.
Qed.

Lemma device_py_inj d1 d2 : device_py d1 = device_py d2 → d1 = d2.
Proof.
  destruct d1 as [m1 l1], d2 as [m2 l2]. unfold device_py. cbn.
  intros H. inversion H. by subst.
Qed.

Lemma devices_py_inj (D1 D2 : DeviceSet) :
  devices_py D1 = devices_py D2 → D1 = D2.
Proof.
  intros [= Heq]. revert D2 Heq.
  induction D1 as [|[ip1 d1] D1 IH]; intros [|[ip2 d2] D2]; simpl; try done.
  destruct d1 as [m1 l1], d2 as [m2 l2]. simpl.
  intros Heq. inversion Heq as [[Hip Hmac Hseen Hrest]]. subst.
  f_equal. by apply IH.
Qed.

(** A snapshot written by [save_state] is not taken for the legacy
    schema: [load_data] hands it back as it is. *)
Lemma load_data_snapshot now' (D : DeviceSet) now :
  load_data now' (snapshot D now) = Some (snapshot D now).
Proof. destruct D as [|[ip d] D]; reflexivity. Qed.

(** C2: once [save_state] has returned [True] for [D], [load_state] on the
    same path returns the snapshot just written: its devices mapping is
    [D], entry for entry. *)
Theorem load_save_roundtrip (fs fs' : gmap Path content) (path : Path)
    (D : DeviceSet) (now now' : string) (flt : io_fault) :
  D ≠ [] →
  save_state fs path D now flt = (true, fs') →
  load_state fs' path now' = snapshot D now
  ∧ ∃ top, load_state fs' path now' = PDict top
           ∧ Dict.get (KStr "devices") top = Some (devices_py D)
           ∧ ∀ D', Dict.get (KStr "devices") top = Some (devices_py D') →
                   D' = D.
Proof.
  intros _ Hsave.
  apply save_state_true in Hsave as (_ & _ & Hpath & _).
  assert (load_state fs' path now' = snapshot D now) as Hload.
  { unfold load_state. rewrite Hpath. by rewrite load_data_snapshot. }
  split; [done |]. rewrite Hload. eexists. split; [done |].
  assert (Dict.get (KStr "devices")
            [(KStr "devices", devices_py D); (KStr "last_scan", PStr now)]
          = Some (devices_py D)) as -> by reflexivity.
  split; [done |]. intros D' HD'. apply devices_py_inj. congruence.
Qed.

Lemma load_save_roundtrip_witness :
  one_device ≠ []
  ∧ save_state ∅ state_path one_device "T1" NoFault
    = (true, {[ state_path := Json (snapshot one_device "T1") ]})
  ∧ load_state {[ state_path := Json (snapshot one_device "T1") ]}
      state_path "T2" = snapshot one_device "T1".
Proof.
  assert (Hne : one_device ≠ []) by discriminate.
  pose proof save_state_ok as Hsave.
  split; [exact Hne |]. split; [exact Hsave |].
  exact (proj1 (load_save_roundtrip ∅ _ state_path one_device "T1" "T2"
                  NoFault Hne Hsave)).
Defined.

(** *** Legacy schema *)

Lemma keys_set {K V : Type} `{EqDecision K} (k k' : K) (v : V) d :
  k' ∈ Dict.keys (Dict.set k v d) ↔ k' = k ∨ k' ∈ Dict.keys d.
Proof.
  rewrite <- !DictFacts.get_is_Some.
  destruct (decide (k = k')) as [->|Hne].
  - rewrite DictFacts.get_set_eq. split; [by left | by eauto].
  - rewrite DictFacts.get_set_ne by done. split; [by right |].
    by intros [->|?].
Qed.

Lemma set_id {K V : Type} `{EqDecision K} (k : K) (v : V) d :
  Dict.get k d = Some v → Dict.set k v d = d.
Proof.
  induction d as [|[k' v'] d IH]; simpl; [done |].
  case_decide; [by intros [= ->] | intros Hg; by rewrite IH].
Qed.

(** The migration loop on legacy items: it does not raise, every entry it
    adds is made from an item with a non-empty IP, and every such item has
    its IP among the keys. *)
Lemma migrate_legacy now items acc :
  Forall legacy_item items →
  ∃ new_devices,
    migrate now items acc = Some new_devices
    ∧ (∀ k v, (k, v) ∈ new_devices →
         (k, v) ∈ acc
         ∨ ∃ mac f ip seen,
             (mac, PDict f) ∈ items
             ∧ Dict.get (KStr "ip") f = Some (PStr ip)
             ∧ Dict.get (KStr "last_seen") f = Some seen
             ∧ ip ≠ EmptyString
             ∧ k = KStr ip ∧ v = migrated mac seen)
    ∧ (∀ k, k ∈ Dict.keys acc → k ∈ Dict.keys new_devices)
    ∧ (∀ mac f ip,
         (mac, PDict f) ∈ items →
         Dict.get (KStr "ip") f = Some (PStr ip) →
         ip ≠ EmptyString → KStr ip ∈ Dict.keys new_devices).
Proof.
  intros Hleg. revert acc.
  induction Hleg as [|[mac info] items (f & ip & seen & Hf & Hip & Hseen) _ IH];
    intros acc.
  - exists acc. split; [done |]. split; [by left |]. split; [done |].
    by intros ? ? ? ?%elem_of_nil.
  - simpl in Hf. subst info. cbn [migrate]. rewrite Hip, Hseen. simpl.
    destruct (String.eqb_spec ip EmptyString) as [->|Hne]; simpl.
    + destruct (IH acc) as (new & -> & Hfrom & Hkeep & Hall).
      exists new. split; [done |]. split; [| split; [done |]].
      * intros k v [?|(m & f' & ip' & s' & ? & ?)]%Hfrom; [by left | right].
        exists m, f', ip', s'. split; [by right | done].
      * intros m f' ip' [[= -> ->]|Hin]%elem_of_cons Hip' Hne'.
        -- rewrite Hip in Hip'. by injection Hip' as <-.
        -- by eapply Hall.
    + destruct (IH (Dict.set (KStr ip) (migrated mac seen) acc))
        as (new & Hmig & Hfrom & Hkeep & Hall).
      unfold migrated in Hmig. rewrite Hmig.
      exists new. split; [done |]. split; [| split].
      * intros k v [[?|[= -> ->]]%DictFacts.elem_of_set
                   |(m & f' & ip' & s' & ? & ?)]%Hfrom.
        -- by left.
        -- right. exists mac, f, ip, seen. split; [by left | done].
        -- right. exists m, f', ip', s'. split; [by right | done].
      * intros k Hk. apply Hkeep, keys_set. by right.
      * intros m f' ip' [[= -> ->]|Hin]%elem_of_cons Hip' Hne'.
        -- rewrite Hip in Hip'. injection Hip' as <-.
           apply Hkeep, keys_set. by left.
        -- by eapply Hall.
Qed.

(** C3, as the code has it: the legacy mapping is looked for under the
    ["devices"] key of the file.  A state file whose ["devices"] entry is a
    mapping in the legacy schema loads with that mapping replaced by one
    keyed by IP: every entry of the new mapping sits under the IP of a
    legacy item and holds that item's key as ["mac"] and its ["last_seen"]
    value, and every legacy item with a non-empty IP has its IP among the
    new keys. *)
Theorem load_state_migrates_legacy (fs : gmap Path content) (path : Path)
    (now : string) (top items : list (pykey * pyval)) :
  fs !! path = Some (Json (PDict top)) →
  Dict.get (KStr "devices") top = Some (PDict items) →
  Forall legacy_item items →
  ∃ new_devices,
    load_state fs path now
    = PDict (Dict.set (KStr "devices") (PDict new_devices) top)
    ∧ (∀ k v, (k, v) ∈ new_devices →
         ∃ mac f ip seen,
           (mac, PDict f) ∈ items
           ∧ Dict.get (KStr "ip") f = Some (PStr ip)
           ∧ Dict.get (KStr "last_seen") f = Some seen
           ∧ ip ≠ EmptyString
           ∧ k = KStr ip ∧ v = migrated mac seen)
    ∧ (∀ mac f ip,
         (mac, PDict f) ∈ items →
         Dict.get (KStr "ip") f = Some (PStr ip) →
         ip ≠ EmptyString → KStr ip ∈ Dict.keys new_devices).
Proof.
  intros Hfile Hdev Hleg. unfold load_state, load_data.
  rewrite Hfile, Hdev.
  destruct items as [|[k0 v0] rest].
  - exists []. simpl. rewrite (set_id _ _ _ Hdev).
    split; [done |].
    split; [by intros ? ? ?%elem_of_nil | by intros ? ? ? ?%elem_of_nil].
  - cbn [truthy length Nat.eqb negb].
    assert (has_ip v0 = true) as ->.
    { apply Forall_cons in Hleg as [(f & ip & seen & Hf & Hip & _) _].
      simpl in Hf. subst v0. simpl. rewrite Hip.
      apply bool_decide_eq_true. by eexists. }
    destruct (migrate_legacy now ((k0, v0) :: rest) [] Hleg)
      as (new & -> & Hfrom & _ & Hall).
    exists new. split; [done |]. split; [| done].
    intros k v [Hnil|?]%Hfrom; [by apply elem_of_nil in Hnil | done].
Qed.

Example load_state_legacy_example :
  load_state {[ state_path := Json legacy_file ]} state_path "now"
  = PDict [(KStr "devices",
            PDict [(KStr "10.0.0.5",
                    PDict [(KStr "mac", PStr "AA:BB:CC:DD:EE:FF");
                           (KStr "last_seen", PStr "T")])]);
           (KStr "last_scan", PStr "T")].
Proof. vm_compute. reflexivity. Qed.

Lemma load_state_migrates_legacy_witness :
  ∃ new_devices,
    load_state {[ state_path := Json legacy_file ]} state_path "now"
    = PDict (Dict.set (KStr "devices") (PDict new_devices)
               [(KStr "devices",
                 PDict [(KStr "AA:BB:CC:DD:EE:FF",
                         PDict [(KStr "ip", PStr "10.0.0.5");
                                (KStr "last_seen", PStr "T")])]);
                (KStr "last_scan", PStr "T")])
    ∧ (∀ k v, (k, v) ∈ new_devices →
         ∃ mac f ip seen,
           (mac, PDict f)
             ∈ [(KStr "AA:BB:CC:DD:EE:FF",
                 PDict [(KStr "ip", PStr "10.0.0.5");
                        (KStr "last_seen", PStr "T")])]
           ∧ Dict.get (KStr "ip") f = Some (PStr ip)
           ∧ Dict.get (KStr "last_seen") f = Some seen
           ∧ ip ≠ EmptyString
           ∧ k = KStr ip ∧ v = migrated mac seen)
    ∧ (∀ mac f ip,
         (mac, PDict f)
           ∈ [(KStr "AA:BB:CC:DD:EE:FF",
               PDict [(KStr "ip", PStr "10.0.0.5");
                      (KStr "last_seen", PStr "T")])] →
         Dict.get (KStr "ip") f = Some (PStr ip) →
         ip ≠ EmptyString → KStr ip ∈ Dict.keys new_devices).
Proof.
  apply load_state_migrates_legacy.
  - vm_compute. reflexivity.
  - reflexivity.
  - apply Forall_cons. split; [| exact (List.Forall_nil _)].
    exists [(KStr "ip", PStr "10.0.0.5"); (KStr "last_seen", PStr "T")],
      "10.0.0.5", (PStr "T").
    split; [reflexivity |]. split; reflexivity.
Defined.

(** Of two legacy items with one IP the later one stays, and an item with
    an empty IP is left out. *)
Example load_state_legacy_same_ip :
  load_data "now"
    (PDict [(KStr "devices",
             PDict [(KStr "M1", PDict [(KStr "ip", PStr "10.0.0.5");
                                       (KStr "last_seen", PStr "T1")]);
                    (KStr "M2", PDict [(KStr "ip", PStr "10.0.0.5");
                                       (KStr "last_seen", PStr "T2")]);
                    (KStr "M3", PDict [(KStr "ip", PStr "");
                                       (KStr "last_seen", PStr "T3")])])])
  = Some (PDict [(KStr "devices",
                  PDict [(KStr "10.0.0.5",
                          PDict [(KStr "mac", PStr "M2");
                                 (KStr "last_seen", PStr "T2")])])]).
Proof. vm_compute. reflexivity. Qed.

(** The migration looks under the ["devices"] key only: a file that is
    the bare legacy mapping is handed back as it is. *)
Example load_data_bare_mapping :
  load_data "now"
    (PDict [(KStr "AA:BB:CC:DD:EE:FF",
             PDict [(KStr "ip", PStr "10.0.0.5");
                    (KStr "last_seen", PStr "T")])])
  = Some (PDict [(KStr "AA:BB:CC:DD:EE:FF",
                  PDict [(KStr "ip", PStr "10.0.0.5");
                         (KStr "last_seen", PStr "T")])]).
Proof. reflexivity. Qed.

(** C3 as written fails: the file of its example, the MAC-keyed mapping
    itself, has no ["devices"] key, so [load_state] hands it back as it is
    and the result holds no devices mapping at all, migrated or not. *)
Lemma load_state_bare_mapping_not_migrated :
  ¬ (∀ (fs : gmap Path content) (path : Path) (now : string)
       (items : list (pykey * pyval)),
       fs !! path = Some (Json (PDict items)) →
       Forall legacy_item items →
       ∃ top new_devices,
         load_state fs path now = PDict top
         ∧ Dict.get (KStr "devices") top = Some (PDict new_devices)
         ∧ (∀ k v, (k, v) ∈ new_devices →
              ∃ mac f ip seen,
                (mac, PDict f) ∈ items
                ∧ Dict.get (KStr "ip") f = Some (PStr ip)
                ∧ Dict.get (KStr "last_seen") f = Some seen
                ∧ ip ≠ EmptyString
                ∧ k = KStr ip ∧ v = migrated mac seen)
         ∧ (∀ mac f ip,
              (mac, PDict f) ∈ items →
              Dict.get (KStr "ip") f = Some (PStr ip) →
              ip ≠ EmptyString → KStr ip ∈ Dict.keys new_devices)).
Proof.
  intros Hclaim.
  destruct (Hclaim {[ state_path := Json (PDict bare_legacy_items) ]}
              state_path "now" bare_legacy_items)
    as (top & new_devices & Hload & Hdev & _).
  - apply lookup_singleton_eq.
  - apply List.Forall_cons; [| apply List.Forall_nil].
    exists [(KStr "ip", PStr "10.0.0.5"); (KStr "last_seen", PStr "T")],
      "10.0.0.5", (PStr "T").
    by repeat split.
  - unfold load_state in Hload. rewrite lookup_singleton_eq in Hload.
    cbn in Hload. injection Hload as <-. vm_compute in Hdev. discriminate.
Qed.

Example load_state_bare_mapping :
  load_state {[ state_path := Json (PDict bare_legacy_items) ]} state_path
    "now" = PDict bare_legacy_items.
Proof. unfold load_state. by rewrite lookup_singleton_eq. Qed.

(** Missing and unreadable files load as the empty snapshot. *)
Example load_state_missing : load_state ∅ state_path "now" = empty_snapshot.
Proof. reflexivity. Qed.

Example load_state_garbage :
  load_state {[ state_path := Garbage ]} state_path "now" = empty_snapshot.
Proof. vm_compute. reflexivity. Qed.

(** ** Event sink *)

Example backup_path_example :
  backup_path log_path "20240131_235959"
  = {| parent := "."; name := "wlan_connection_log_20240131_235959.txt" |}.
Proof. reflexivity. Qed.

Example log_line_example :
  log_line "2024-01-31 23:59:59" "VERBUNDEN" "192.168.1.9" None
  = "[2024-01-31 23:59:59] VERBUNDEN: IP=192.168.1.9 MAC=UNKNOWN" +:+ nl.
Proof. reflexivity. Qed.



(** When the rename fails the old file stays and the line is added to
    it (here with a threshold of 0 KB). *)
Example append_log_rename_fails :
  (append_log
     {| scan_interval := 10; state_file := "wlan_status.json";
        log_file := "wlan_connection_log.txt"; subnet := "192.168.178.0";
        max_log_size_kb := 0; ping_workers := 50; ping_timeout := 2 |}
     {[ log_path := filler 3 ]} log_path "GETRENNT"
     "192.168.1.9" (Some "66:77:88:99:AA:BB") "20240131_235959"
     "2024-01-31 23:59:59"
     {| rename_fails := true; append_step := AppendWorks |}).1
  = {[ log_path :=
         "xxx[2024-01-31 23:59:59] GETRENNT: IP=192.168.1.9 "
         +:+ "MAC=66:77:88:99:AA:BB" +:+ nl ]}.
Proof.
  unfold append_log, rotate_log_file, append_file.
  cbn -[insert delete lookup empty singletonM].
  rewrite !lookup_singleton_eq. cbn -[insert delete lookup empty singletonM].
  change (N.of_nat 0 * 1024 <=? N.of_nat 3)%N with true. cbv iota.
  rewrite lookup_singleton_eq, insert_singleton_eq. f_equal.
Qed.

(** ** Scan loop *)

Lemma loads_ok_same fs fs' path :
  fs' !! path = fs !! path → loads_ok fs path → loads_ok fs' path.
Proof.
  intros Heq Hok now. destruct (Hok now) as [pd Hpd]. exists pd.
  unfold load_state in *. by rewrite Heq.
Qed.

Lemma loads_ok_empty path : loads_ok ∅ path.
Proof.
  intros now. exists []. unfold load_state. rewrite lookup_empty.
  eexists. by repeat split.
Qed.

Lemma warnings_app t1 t2 : warnings (t1 ++ t2) = warnings t1 + warnings t2.
Proof. unfold warnings. by rewrite List.filter_app, length_app. Qed.

Lemma warnings_emit (evs : list event) : warnings (Emit <$> evs) = 0.
Proof. by induction evs. Qed.

(** [time.sleep] accepts the default interval of ten seconds and refuses
    the one that [--interval -1] leaves. *)
Example sleep_raises_intervals :
  sleep_raises (scan_interval CONFIG) = false
  ∧ sleep_raises (scan_interval negative_interval) = true.
Proof. by split. Qed.

(** One pass in which the save fails, no Ctrl-C arrives and the sleep
    works: the counter goes up by one, or back to zero with one warning when
    it reaches [max_consecutive_errors]; the state file stays as it was. *)
Lemma cycle_save_fails `{SetOrder} cfg path env st :
  sleep_raises (scan_interval cfg) = false →
  loads_ok (store st) path →
  fault env ≠ NoFault → interrupt env = false →
  consecutive_errors st < max_consecutive_errors →
  let st' := (cycle cfg path false env st).1 in
  let t := (cycle cfg path false env st).2 in
  consecutive_errors st' = S (consecutive_errors st) `mod` 10
  ∧ warnings t = S (consecutive_errors st) `div` 10
  ∧ running st' = true
  ∧ store st' !! path = store st !! path.
Proof.
  intros Hsleep Hok Hflt Hint Hc. unfold cycle.
  destruct (Hok (iso env)) as [pd Hpd].
  rewrite (reconcile_events _ _ _ Hpd).
  destruct (save_state (store st) path (scanned env) (iso env) (fault env))
    as [[|] fs'] eqn:Hsave.
  { apply save_state_true in Hsave as [? _]. done. }
  apply save_state_false in Hsave as [_ Hpath].
  rewrite Hint, Hsleep. unfold max_consecutive_errors in *. cbn [fst snd].
  cbn [consecutive_errors running store negb andb].
  rewrite !warnings_app, warnings_emit.
  destruct (Nat.leb_spec 10 (S (consecutive_errors st))) as [Hle|Hlt].
  - assert (S (consecutive_errors st) = 10) as -> by lia.
    repeat split; [| done]. by destruct (negb _).
  - rewrite Nat.mod_small, Nat.div_small by lia.
    repeat split; [| done]. by destruct (negb _).
Qed.

(** A pass that reaches a successful save and whose sleep works ends
    with the counter at zero. *)
Lemma cycle_save_ok `{SetOrder} cfg path once env st :
  sleep_raises (scan_interval cfg) = false →
  loads_ok (store st) path →
  fault env = NoFault → name path ≠ EmptyString →
  consecutive_errors (cycle cfg path once env st).1 = 0
  ∧ warnings (cycle cfg path once env st).2 = 0.
Proof.
  intros Hsleep Hok Hflt Hname. unfold cycle.
  destruct (Hok (iso env)) as [pd Hpd].
  rewrite (reconcile_events _ _ _ Hpd).
  destruct (save_state (store st) path (scanned env) (iso env) (fault env))
    as [[|] fs'] eqn:Hsave.
  - cbn [fst snd consecutive_errors]. rewrite Hsleep, andb_false_r.
    split; [done |].
    rewrite !warnings_app, warnings_emit. simpl.
    by destruct (negb _), (negb once && interrupt env).
  - apply save_state_false in Hsave as [[?|?] _]; done.
Qed.

(** Passes whose saves all fail, from a counter below the threshold: the
    counter is the number of failures modulo ten, and there is one warning
    for every ten of them. *)
Lemma run_loop_save_fails `{SetOrder} cfg path envs st :
  sleep_raises (scan_interval cfg) = false →
  running st = true →
  loads_ok (store st) path →
  consecutive_errors st < max_consecutive_errors →
  Forall (λ env, fault env ≠ NoFault ∧ interrupt env = false) envs →
  let st' := (run_loop cfg path false envs st).1 in
  let t := (run_loop cfg path false envs st).2 in
  consecutive_errors st' = (consecutive_errors st + length envs) `mod` 10
  ∧ warnings t = (consecutive_errors st + length envs) `div` 10
  ∧ running st' = true
  ∧ store st' !! path = store st !! path.
Proof.
  intros Hsleep Hrun Hok Hc Henvs. revert st Hrun Hok Hc.
  induction Henvs as [|env envs [Hflt Hint] _ IH]; intros st Hrun Hok Hc.
  - unfold max_consecutive_errors in Hc. cbn [run_loop fst snd length].
    rewrite Nat.add_0_r, Nat.mod_small, Nat.div_small by lia. done.
  - cbn [run_loop]. rewrite Hrun.
    pose proof (cycle_save_fails cfg path env st Hsleep Hok Hflt Hint Hc)
      as (Hc1 & Hw1 & Hrun1 & Hst1).
    destruct (cycle cfg path false env st) as [st1 t1]. cbn [fst snd] in *.
    assert (consecutive_errors st1 < max_consecutive_errors) as Hc1'.
    { unfold max_consecutive_errors. rewrite Hc1.
      apply Nat.mod_upper_bound. lia. }
    specialize (IH st1 Hrun1 (loads_ok_same _ _ _ Hst1 Hok) Hc1')
      as (Hc2 & Hw2 & Hrun2 & Hst2).
    destruct (run_loop cfg path false envs st1) as [st2 t2].
    cbn [fst snd] in *.
    rewrite warnings_app, Hw1, Hw2, Hc2, Hc1, Hst2, Hst1.
    unfold max_consecutive_errors in *.
    cbn [length]. repeat split; [| | done].
    + rewrite Nat.Div0.add_mod_idemp_l. f_equal. lia.
    + replace (consecutive_errors st + S (length envs))
        with (S (consecutive_errors st) + length envs) by lia.
      rewrite (Nat.div_mod_eq (S (consecutive_errors st)) 10) at 3.
      rewrite <- Nat.add_assoc, Nat.mul_comm, Nat.div_add_l by lia. done.
Qed.

Lemma run_loop_app `{SetOrder} cfg path once envs1 envs2 st :
  run_loop cfg path once (envs1 ++ envs2) st
  = let '(st1, t1) := run_loop cfg path once envs1 st in
    if running st1 then
      let '(st2, t2) := run_loop cfg path once envs2 st1 in (st2, t1 ++ t2)
    else (st1, t1).
Proof.
  revert st. induction envs1 as [|env envs1 IH]; intros st.
  - cbn [app run_loop]. destruct envs2 as [|env2 envs2]; cbn [run_loop].
    + by destruct (running st).
    + destruct (running st); [| done].
      destruct (cycle _ _ _ _ _) as [st1 t1].
      by destruct (run_loop _ _ _ _ _).
  - cbn [app run_loop]. destruct (running st) eqn:Hrun; [| by rewrite Hrun].
    destruct (cycle cfg path once env st) as [st1 t1]. rewrite IH.
    destruct (run_loop cfg path once envs1 st1) as [st2 t2].
    destruct (running st2); [| done].
    destruct (run_loop cfg path once envs2 st2) as [st3 t3].
    by rewrite app_assoc.
Qed.

(** A pass without Ctrl-C leaves the loop running and the state file
    loadable, whatever the sleep does. *)
Lemma cycle_keeps_going `{SetOrder} cfg path env st :
  loads_ok (store st) path → interrupt env = false →
  running (cycle cfg path false env st).1 = true
  ∧ loads_ok (store (cycle cfg path false env st).1) path.
Proof.
  intros Hok Hint. unfold cycle.
  destruct (Hok (iso env)) as [pd Hpd].
  rewrite (reconcile_events _ _ _ Hpd).
  destruct (save_state (store st) path (scanned env) (iso env) (fault env))
    as [[|] fs'] eqn:Hsave; cbn [fst running store]; rewrite Hint.
  - split; [done |]. apply save_state_true in Hsave as (_ & _ & Hpath & _).
    intros now. eexists. unfold load_state. rewrite Hpath.
    rewrite load_data_snapshot. apply snapshot_devices_snapshot.
  - split; [done |]. apply save_state_false in Hsave as [_ Hpath].
    by eapply loads_ok_same.
Qed.

Lemma run_loop_keeps_going `{SetOrder} cfg path envs st :
  running st = true → loads_ok (store st) path →
  Forall (λ env, interrupt env = false) envs →
  running (run_loop cfg path false envs st).1 = true
  ∧ loads_ok (store (run_loop cfg path false envs st).1) path.
Proof.
  intros Hrun Hok Henvs. revert st Hrun Hok.
  induction Henvs as [|env envs Hint _ IH]; intros st Hrun Hok; [done |].
  cbn [run_loop]. rewrite Hrun.
  destruct (cycle_keeps_going cfg path env st Hok Hint) as [Hrun1 Hok1].
  destruct (cycle cfg path false env st) as [st1 t1]. cbn [fst] in *.
  specialize (IH st1 Hrun1 Hok1).
  by destruct (run_loop cfg path false envs st1).
Qed.

(** C7, as the code has it: the counter counts the passes that went
    wrong, whatever went wrong in them.  In a run whose interval
    [time.sleep] accepts and whose state file loads as a snapshot (so that
    every pass reaches the save), take any point where the counter has just
    been set to zero (the start of the loop, or a pass whose save
    succeeded), and let the saves of the next ten passes fail.  The first
    nine give no warning and count up; the tenth gives one warning and
    leaves the counter at zero, and the loop is still running.  In such a
    run a pass whose save succeeds leaves the counter at zero. *)
Theorem ten_failures_one_warning `{SetOrder} (cfg : Config) (path : Path)
    (pre fails : list cycle_env) (st0 : loop_state) :
  sleep_raises (scan_interval cfg) = false →
  running st0 = true →
  consecutive_errors st0 = 0 →
  loads_ok (store st0) path →
  name path ≠ EmptyString →
  Forall (λ env, interrupt env = false) pre →
  (pre = [] ∨ ∃ pre' env, pre = pre' ++ [env] ∧ fault env = NoFault) →
  length fails = 10 →
  Forall (λ env, fault env ≠ NoFault ∧ interrupt env = false) fails →
  let st1 := (run_loop cfg path false pre st0).1 in
  consecutive_errors st1 = 0
  ∧ (∀ n, n < 10 →
       warnings (run_loop cfg path false (take n fails) st1).2 = 0
       ∧ consecutive_errors (run_loop cfg path false (take n fails) st1).1
         = n)
  ∧ warnings (run_loop cfg path false fails st1).2 = 1
  ∧ consecutive_errors (run_loop cfg path false fails st1).1 = 0
  ∧ running (run_loop cfg path false fails st1).1 = true.
Proof.
  intros Hsleep Hrun Hc0 Hok Hname Hpre Hlast Hlen Hfails st1.
  destruct (run_loop_keeps_going cfg path pre st0 Hrun Hok Hpre)
    as [Hrun1 Hok1].
  fold st1 in Hrun1, Hok1.
  assert (consecutive_errors st1 = 0) as Hc1.
  { destruct Hlast as [->|(pre' & env & -> & Hflt)]; [done |].
    subst st1. rewrite run_loop_app.
    apply Forall_app in Hpre as [Hpre' Henv].
    apply Forall_cons in Henv as [Hint _].
    destruct (run_loop_keeps_going cfg path pre' st0 Hrun Hok Hpre')
      as [Hrun' Hok'].
    destruct (run_loop cfg path false pre' st0) as [st' t']. cbn [fst] in *.
    rewrite Hrun'. cbn [run_loop]. rewrite Hrun'.
    pose proof (cycle_save_ok cfg path false env st' Hsleep Hok' Hflt Hname)
      as [Hz _].
    destruct (cycle cfg path false env st') as [st'' t'']. cbn [fst] in *.
    by destruct (running st''). }
  split; [done |].
  assert (consecutive_errors st1 < max_consecutive_errors) as Hlt
    by (rewrite Hc1; unfold max_consecutive_errors; lia).
  split.
  - intros n Hn.
    pose proof (run_loop_save_fails cfg path (take n fails) st1 Hsleep Hrun1
                  Hok1 Hlt (Forall_take _ n _ Hfails)) as (Hc & Hw & _).
    rewrite length_take_le, Hc1 in Hc, Hw by lia.
    rewrite Hw, Hc, Nat.div_small, Nat.mod_small by lia. done.
  - pose proof (run_loop_save_fails cfg path fails st1 Hsleep Hrun1 Hok1 Hlt
                  Hfails) as (Hc & Hw & Hr & _).
    rewrite Hlen, Hc1 in Hc, Hw. by rewrite Hw, Hc, Hr.
Qed.

Lemma ten_failures_one_warning_witness :
  let st1 := (run_loop (H := elements_order) CONFIG state_path false
                [pass NoFault] start_state).1 in
  consecutive_errors st1 = 0
  ∧ warnings (run_loop (H := elements_order) CONFIG state_path false
                (replicate 10 (pass WriteFails)) st1).2 = 1
  ∧ consecutive_errors
      (run_loop (H := elements_order) CONFIG state_path false
         (replicate 10 (pass WriteFails)) st1).1 = 0.
Proof.
  intros st1.
  destruct (ten_failures_one_warning (H := elements_order) CONFIG state_path
              [pass NoFault] (replicate 10 (pass WriteFails)) start_state)
    as (Hc & _ & Hw & Hz & _).
  - reflexivity.
  - reflexivity.
  - reflexivity.
  - apply loads_ok_empty.
  - discriminate.
  - by repeat constructor.
  - right. exists [], (pass NoFault). by split.
  - reflexivity.
  - by repeat constructor.
  - by repeat split.
Defined.

(** C7 as written fails: the counter counts every pass that went wrong,
    not the failed saves alone.  With [--interval -1] the sleep that ends a
    pass raises inside the [try], so a pass whose save fails counts twice:
    from the start of the loop, with a state file that loads, the warning
    comes in the sixth of ten passes with failing saves, and after the
    tenth the counter is at nine. *)
Lemma ten_failures_counter_not_reset :
  ¬ (∀ (order : SetOrder) (cfg : Config) (path : Path)
       (pre fails : list cycle_env) (st0 : loop_state),
       running st0 = true →
       consecutive_errors st0 = 0 →
       name path ≠ EmptyString →
       Forall (λ env, interrupt env = false) pre →
       (pre = [] ∨ ∃ pre' env, pre = pre' ++ [env] ∧ fault env = NoFault) →
       length fails = 10 →
       Forall (λ env, fault env ≠ NoFault ∧ interrupt env = false) fails →
       let st1 := (run_loop (H := order) cfg path false pre st0).1 in
       consecutive_errors st1 = 0
       ∧ (∀ n, n < 10 →
            warnings
              (run_loop (H := order) cfg path false (take n fails) st1).2 = 0
            ∧ consecutive_errors
                (run_loop (H := order) cfg path false (take n fails) st1).1
              = n)
       ∧ warnings (run_loop (H := order) cfg path false fails st1).2 = 1
       ∧ consecutive_errors
           (run_loop (H := order) cfg path false fails st1).1 = 0
       ∧ running (run_loop (H := order) cfg path false fails st1).1 = true).
Proof.
  intros Hclaim.
  destruct (Hclaim elements_order negative_interval state_path []
              (replicate 10 (pass WriteFails)) start_state)
    as (_ & _ & _ & Hzero & _).
  - reflexivity.
  - reflexivity.
  - discriminate.
  - apply List.Forall_nil.
  - by left.
  - reflexivity.
  - by repeat constructor.
  - vm_compute in Hzero. discriminate.
Qed.

Example negative_interval_warns_at_sixth :
  let run n := run_loop (H := elements_order) negative_interval state_path
                 false (replicate n (pass WriteFails)) start_state in
  loads_ok (store start_state) state_path
  ∧ warnings (run 5).2 = 0 ∧ warnings (run 6).2 = 1
  ∧ warnings (run 10).2 = 1 ∧ consecutive_errors (run 10).1 = 9.
Proof. split; [apply loads_ok_empty |]. vm_compute. by repeat split. Qed.

(** With [--interval -1] a pass whose save succeeds ends with the counter
    at one. *)
Example negative_interval_after_save :
  consecutive_errors
    (cycle (H := elements_order) negative_interval state_path false
       (pass NoFault) start_state).1 = 1.
Proof. vm_compute. reflexivity. Qed.

(** Passes that raise count too.  On a state file whose entry of
    10.0.0.9 is not a dictionary, a pass that does not see 10.0.0.9 raises
    when it comes to report it as gone; after nine such passes the first
    save that fails brings the warning, and after ten failed saves the
    counter is at nine. *)
Example errors_before_failed_saves :
  let st0 := {| consecutive_errors := 0; last_heartbeat_hour := 12;
                scan_count := 0;
                store := {[ state_path := Json odd_file ]};
                running := true |} in
  let st1 := (run_loop (H := elements_order) CONFIG state_path false
                (replicate 9 (pass NoFault)) st0).1 in
  let run n := run_loop (H := elements_order) CONFIG state_path false
                 (replicate n (pass_seeing_9 WriteFails)) st1 in
  consecutive_errors st1 = 9 ∧ scan_count st1 = 0
  ∧ warnings (run 1).2 = 1 ∧ scan_count (run 1).1 = 1
  ∧ warnings (run 10).2 = 1 ∧ consecutive_errors (run 10).1 = 9.
Proof. vm_compute. by repeat split. Qed.

Example warning_text :
  render (Warning max_consecutive_errors) "2024-01-31 12:00:00"
  = "Warnung: 10 aufeinanderfolgende Fehler beim Speichern "
    +:+ "[2024-01-31 12:00:00]".
Proof. reflexivity. Qed.

(** * Further properties *)

(** ** Text and patterns *)

Lemma take_drop n s : Re.take n s +:+ Re.drop n s = s.
Proof.
  revert s. induction n as [|n IH]; intros [|a s]; try done.
  cbn [Re.take Re.drop]. by rewrite StrFacts.app_cons, IH.
Qed.

Lemma length_take_min n s :
  String.length (Re.take n s) = n `min` String.length s.
Proof.
  revert s. induction n as [|n IH]; intros [|a s]; simpl; try done.
  by rewrite IH.
Qed.

Lemma take_app_length (w s : string) : Re.take (String.length w) (w +:+ s) = w.
Proof.
  induction w as [|a w IH]; [by destruct s |].
  rewrite StrFacts.app_cons. cbn [String.length Re.take]. by rewrite IH.
Qed.

Lemma app_assoc_str (s t u : string) : (s +:+ t) +:+ u = s +:+ (t +:+ u).
Proof.
  induction s as [|a s IH]; [done |]. by rewrite !StrFacts.app_cons, IH.
Qed.

(** The first [n] characters of a run are in the class. *)
Lemma run_all_chars cls hi s n :
  n ≤ Re.run cls hi s → all_chars cls (Re.take n s) = true.
Proof.
  revert hi n. induction s as [|a s IH]; intros hi [|n]; try done.
  cbn [Re.run Re.take all_chars].
  destruct hi as [[|h]|]; [intros; lia | |]; destruct (cls a);
    try (intros; lia); intros Hn; simpl; eapply IH; apply le_S_n, Hn.
Qed.

(** A match consumes a word of the expression's language from the front
    of the text. *)
Lemma matches_consumed r s caps s1 caps1 :
  re_matches r s caps s1 caps1 → ∃ w, s = w +:+ s1 ∧ re_lang r w.
Proof.
  induction 1 as [cls lo hi s caps n Hlo Hhi
                 |r1 r2 s caps s1 caps1 s2 caps2 _ IH1 _ IH2
                 |r s caps s1 caps1 _ IH].
  - exists (Re.take n s). split; [by rewrite take_drop |].
    pose proof (ReFacts.run_le_length cls hi s).
    split; [by eapply run_all_chars |].
    rewrite ReFacts.length_take by lia. split; [done |].
    intros h ->. pose proof (ReFacts.run_le_cap cls h s). lia.
  - destruct IH1 as (w1 & -> & H1), IH2 as (w2 & -> & H2).
    exists (w1 +:+ w2). split; [by rewrite app_assoc_str |].
    by exists w1, w2.
  - done.
Qed.

(** What a group adds to the captures is the word it consumed. *)
Lemma matches_group_word r s caps s1 caps1 :
  re_matches (Re.Group r) s caps s1 caps1 →
  ∃ w caps', caps1 = caps' ++ [w] ∧ s = w +:+ s1 ∧ re_lang r w
             ∧ re_matches r s caps s1 caps'.
Proof.
  inversion 1 as [| |? ? ? ? caps' Hr]; subst.
  destruct (matches_consumed _ _ _ _ _ Hr) as (w & -> & Hw).
  exists w, caps'. repeat split; try done.
  rewrite StrFacts.length_app.
  replace (String.length w + String.length s1 - String.length s1)
    with (String.length w) by lia.
  by rewrite take_app_length.
Qed.

Lemma re_search_match r s caps :
  re_search r s = Some caps → ∃ s' len, Re.match_at r s' = Some (len, caps).
Proof.
  induction s as [|a s IH]; cbn [re_search].
  - destruct (Re.match_at r EmptyString) as [[len c]|] eqn:E; [| done].
    intros [= <-]. eauto.
  - destruct (Re.match_at r (String a s)) as [[len c]|] eqn:E; [| done].
    intros [= <-]. eauto.
Qed.

Lemma drop_app_length (w s : string) : Re.drop (String.length w) (w +:+ s) = s.
Proof.
  induction w as [|a w IH]; [by destruct s |].
  by rewrite StrFacts.app_cons.
Qed.

(** A word of the class within the cap is within the run. *)
Lemma run_prefix cls hi (w rest : string) :
  all_chars cls w = true →
  (∀ h, hi = Some h → String.length w ≤ h) →
  String.length w ≤ Re.run cls hi (w +:+ rest).
Proof.
  revert hi. induction w as [|a w IH]; intros hi Hall Hcap;
    [cbn; lia |].
  rewrite StrFacts.app_cons. cbn [all_chars] in Hall.
  apply andb_true_iff in Hall as [Ha Hw]. cbn [Re.run String.length].
  destruct hi as [[|h]|].
  - specialize (Hcap 0 eq_refl). cbn in Hcap. lia.
  - rewrite Ha. apply le_n_S, IH; [done |].
    intros h' [= <-]. specialize (Hcap (S h) eq_refl). cbn in Hcap. lia.
  - rewrite Ha. apply le_n_S, IH; done.
Qed.

Lemma backtrack_complete {R} (k : string → option R) s lo n :
  Re.backtrack k s lo n = None →
  ∀ m, lo ≤ m → m ≤ n → k (Re.drop m s) = None.
Proof.
  induction n as [|n IH]; cbn [Re.backtrack].
  - destruct (Nat.ltb_spec 0 lo) as [|Hlo]; [intros; lia |].
    destruct (k (Re.drop 0 s)) eqn:Hk; [done |].
    intros _ m ? ?. by replace m with 0 by lia.
  - destruct (Nat.ltb_spec (S n) lo) as [|Hlo]; [intros; lia |].
    destruct (k (Re.drop (S n) s)) eqn:Hk; [done |].
    intros Hb m Hm1 Hm2. destruct (decide (m = S n)) as [->|]; [done |].
    apply IH; [done | done | lia].
Qed.

(** The matcher misses nothing: when it fails, no word of the expression
    is a beginning of the text that the continuation accepts. *)
Lemma rmatch_complete {R} r s caps (k : string → list string → option R) :
  Re.rmatch r s caps k = None →
  ∀ w rest, s = w +:+ rest → re_lang r w → ∃ caps', k rest caps' = None.
Proof.
  revert s caps k.
  induction r as [cls lo hi|r1 IH1 r2 IH2|r IH]; intros s caps k; simpl.
  - intros Hb w rest -> (Hall & Hlo & Hhi). exists caps.
    rewrite <- (drop_app_length w rest).
    apply (backtrack_complete _ _ _ _ Hb); [done |]. by apply run_prefix.
  - intros Hm w rest -> (w1 & w2 & -> & H1 & H2).
    destruct (IH1 _ _ _ Hm w1 (w2 +:+ rest)) as [caps1 Hk1];
      [by rewrite app_assoc_str | done |].
    by apply (IH2 _ _ _ Hk1 w2 rest).
  - intros Hm w rest -> Hw.
    destruct (IH _ _ _ Hm w rest eq_refl Hw) as [caps1 Hk]. by eexists.
Qed.

Lemma match_at_complete r (w rest : string) :
  Re.match_at r (w +:+ rest) = None → ¬ re_lang r w.
Proof.
  intros Hm Hw.
  by destruct (rmatch_complete _ _ _ _ Hm w rest eq_refl Hw) as [? ?].
Qed.

(** [re.search] returns the match at the first place where there is
    one. *)
Lemma re_search_first r s caps :
  re_search r s = Some caps →
  ∃ n len,
    n ≤ String.length s
    ∧ Re.match_at r (Re.drop n s) = Some (len, caps)
    ∧ ∀ m, m < n → Re.match_at r (Re.drop m s) = None.
Proof.
  induction s as [|a s IH]; cbn [re_search].
  - destruct (Re.match_at r EmptyString) as [[len c]|] eqn:E; [| done].
    intros [= <-]. exists 0, len. split; [done |]. split; [done |].
    intros; lia.
  - destruct (Re.match_at r (String a s)) as [[len c]|] eqn:E.
    + intros [= <-]. exists 0, len. split; [cbn; lia |]. split; [done |].
      intros; lia.
    + intros (n & len & Hn & Hm & Hfirst)%IH.
      exists (S n), len. split; [cbn; lia |]. split; [done |].
      intros [|m] Hlt; [done |]. apply Hfirst. lia.
Qed.

(** The word of [\.] is a dot. *)
Lemma re_lang_chr c w : re_lang (Re.chr c) w → w = String c EmptyString.
Proof.
  intros (Hall & Hlo & Hhi). specialize (Hhi 1 eq_refl).
  destruct w as [|a [|b w]]; simpl in *; try lia.
  rewrite andb_true_r in Hall. by apply Ascii.eqb_eq in Hall as ->.
Qed.

Lemma re_lang_octet w : re_lang octet w → octet_text w.
Proof. intros (Hall & Hlo & Hhi). specialize (Hhi 3 eq_refl). by repeat split. Qed.

Lemma all_chars_no_char p c w :
  p c = false → all_chars p w = true → Str.contains c w = false.
Proof.
  intros Hc. induction w as [|a w IH]; [done |]. cbn [all_chars Str.contains].
  intros [Ha Hw]%andb_true_iff. destruct (Ascii.eqb_spec a c) as [->|]; [| auto].
  by rewrite Hc in Ha.
Qed.

Lemma split_no_sep c w : Str.contains c w = false → Str.split c w = [w].
Proof.
  induction w as [|a w IH]; [done |]. cbn [Str.contains Str.split].
  destruct (Ascii.eqb a c); [done |]. intros Hw. by rewrite IH.
Qed.

Lemma split_app_sep c w rest :
  Str.contains c w = false →
  Str.split c (w +:+ String c rest) = w :: Str.split c rest.
Proof.
  induction w as [|a w IH].
  - intros _. change (EmptyString +:+ String c rest) with (String c rest).
    cbn [Str.split]. by rewrite Ascii.eqb_refl.
  - cbn [Str.contains]. rewrite StrFacts.app_cons. cbn [Str.split].
    destruct (Ascii.eqb a c); [done |]. intros Hw. by rewrite IH.
Qed.

Lemma split_app_sep_str c w rest :
  Str.contains c w = false →
  Str.split c (w +:+ String c EmptyString +:+ rest) = w :: Str.split c rest.
Proof. exact (split_app_sep c w rest). Qed.

Lemma octet_no_dot w : octet_text w → Str.contains "." w = false.
Proof.
  intros [Hall _]. by apply (all_chars_no_char Re.digit); [reflexivity |].
Qed.

Lemma octet_no_slash w : octet_text w → Str.contains "/" w = false.
Proof.
  intros [Hall _]. by apply (all_chars_no_char Re.digit); [reflexivity |].
Qed.

Lemma contains_app c (s t : string) :
  Str.contains c (s +:+ t) = Str.contains c s || Str.contains c t.
Proof.
  induction s as [|a s IH]; [done |]. rewrite StrFacts.app_cons.
  cbn [Str.contains]. by destruct (Ascii.eqb a c).
Qed.

Lemma matches_no_group r s caps s1 caps1 :
  no_group r = true → re_matches r s caps s1 caps1 → caps1 = caps.
Proof.
  intros Hr Hm. induction Hm as [| ? ? ? ? ? ? ? ? _ IH1 _ IH2 |]; [done | |].
  - simpl in Hr. apply andb_true_iff in Hr as [H1 H2].
    by rewrite (IH2 H2), (IH1 H1).
  - done.
Qed.

Lemma split_dotted_triple a b c :
  octet_text a → octet_text b → octet_text c →
  Str.split "." (a +:+ "." +:+ b +:+ "." +:+ c) = [a; b; c].
Proof.
  intros Ha Hb Hc.
  rewrite (split_app_sep_str "." a) by by apply octet_no_dot.
  rewrite (split_app_sep_str "." b) by by apply octet_no_dot.
  by rewrite split_no_sep by by apply octet_no_dot.
Qed.

Lemma split_dotted_quad a b c e :
  octet_text a → octet_text b → octet_text c → octet_text e →
  Str.split "." (a +:+ "." +:+ b +:+ "." +:+ c +:+ "." +:+ e) = [a; b; c; e].
Proof.
  intros Ha Hb Hc He.
  rewrite (split_app_sep_str "." a) by by apply octet_no_dot.
  rewrite (split_app_sep_str "." b) by by apply octet_no_dot.
  rewrite (split_app_sep_str "." c) by by apply octet_no_dot.
  by rewrite split_no_sep by by apply octet_no_dot.
Qed.

(** ** Neighbour table reader: what an entry looks like *)

(** The groups of a match of [arp_pattern]: a dotted quad, and 17
    characters of the address class. *)
Lemma arp_pattern_shape s len caps :
  Re.match_at arp_pattern s = Some (len, caps) →
  ∃ ip raw, caps = [ip; raw] ∧ dotted_quad ip
            ∧ all_chars mac_char raw = true ∧ String.length raw = 17.
Proof.
  unfold Re.match_at.
  intros (s1 & caps1 & Hm & [= <- <-])%ReFacts.rmatch_sound.
  unfold arp_pattern in Hm.
  inversion Hm as [|? ? ? ? sA capsA ? ? Hip Hrest|]; subst; clear Hm.
  apply matches_group_word in Hip as (ip & caps' & -> & -> & Hlang & Hin).
  apply matches_no_group in Hin as ->; [| done].
  inversion Hrest as [|? ? ? ? sB capsB ? ? Hsp Hrest'|]; subst; clear Hrest.
  apply ReFacts.matches_rep_caps in Hsp as ->.
  inversion Hrest' as [|? ? ? ? sC capsC ? ? Hmac Hsp'|]; subst; clear Hrest'.
  apply ReFacts.matches_rep_caps in Hsp' as ->.
  apply matches_group_word in Hmac as (raw & caps'' & -> & _ & Hraw & Hin).
  apply ReFacts.matches_rep_caps in Hin as ->.
  destruct Hraw as (Hall & Hlo & Hhi). specialize (Hhi 17 eq_refl).
  exists ip, raw. split; [done |]. split; [| split; [done | lia]].
  destruct Hlang as (a & ? & -> & Ha%re_lang_octet
    & d1 & ? & -> & ->%re_lang_chr
    & b & ? & -> & Hb%re_lang_octet
    & d2 & ? & -> & ->%re_lang_chr
    & c & ? & -> & Hc%re_lang_octet
    & d3 & e & -> & ->%re_lang_chr & He%re_lang_octet).
  exists a, b, c, e. split; [done |].
  split; [by apply split_dotted_quad |].
  by repeat first [apply List.Forall_cons | apply List.Forall_nil].
Qed.

Lemma normalize_mac_char a :
  mac_char a = true →
  upper_hex (if Ascii.eqb (Str.upper_char a) "-" then ":"%char
             else Str.upper_char a) = true.
Proof.
  destruct a as [[] [] [] [] [] [] [] []]; vm_compute; done.
Qed.

Lemma normalize_mac_upper_hex raw :
  all_chars mac_char raw = true → all_chars upper_hex (normalize_mac raw) = true.
Proof.
  unfold normalize_mac, Str.replace, Str.upper.
  induction raw as [|a raw IH]; [done |]. cbn [all_chars Str.map].
  intros [Ha Hraw]%andb_true_iff.
  by rewrite normalize_mac_char, IH.
Qed.

(** X1: every IP that [scan_arp_table] returns consists of four groups of
    one to three digits, separated by dots (the digits are not bounded by
    255). *)
Theorem scan_ip_is_dotted_quad (output : option string)
    (now : nat → string) (ip : string) (d : Device) :
  (ip, d) ∈ scan_arp_table output now → dotted_quad ip.
Proof.
  intros Hin. destruct output as [text|]; simpl in Hin;
    [| by apply elem_of_nil in Hin].
  apply (scan_entries_from_matches (λ ip _, dotted_quad ip)) in Hin
    as [Hin|Hin]; [by apply elem_of_nil in Hin | done |].
  clear. intros t m devices e Hm. unfold scan_entry.
  apply ReFacts.finditer_from_match in Hm as (s' & len & Hm).
  apply arp_pattern_shape in Hm as (ip & raw & -> & Hip & _). simpl.
  destruct (negb _ && negb _); [| by left].
  intros [He| ->]%DictFacts.elem_of_set; [by left | by right].
Qed.

Lemma scan_ip_is_dotted_quad_witness :
  (("192.168.1.1",
    {| mac := "00:11:22:33:44:55"; last_seen := "T0" |})
   ∈ scan_arp_table (Some arp_sample) ticks)
  ∧ dotted_quad "192.168.1.1".
Proof.
  assert (Hin : ("192.168.1.1",
                 {| mac := "00:11:22:33:44:55"; last_seen := "T0" |})
                ∈ scan_arp_table (Some arp_sample) ticks)
    by (rewrite scan_sample; by left).
  split; [exact Hin |].
  exact (scan_ip_is_dotted_quad (Some arp_sample) ticks _ _ Hin).
Defined.

Example scan_accepts_large_octets :
  scan_arp_table
    (Some ("999.999.999.999 00-11-22-33-44-55 dynamic" +:+ nl)) ticks
  = [("999.999.999.999",
      {| mac := "00:11:22:33:44:55"; last_seen := "T0" |})].
Proof. vm_compute. reflexivity. Qed.

(** Where an entry of the result comes from: a match of the listing,
    whose first group is the IP and in whose pass of the loop the clock was
    read. *)
Lemma scan_matches_origin now i ms devices ip d :
  (ip, d) ∈ scan_matches now i ms devices →
  (ip, d) ∈ devices
  ∨ ∃ j m, ms !! j = Some m
           ∧ nth 0 m EmptyString = ip
           ∧ (ip, d) ∈ scan_entry (now (i + j)) [] m.
Proof.
  revert i devices. induction ms as [|m ms IH]; intros i devices; simpl;
    [by left |].
  intros [Hin|(j & m' & Hj & Hip & Hd)]%IH.
  - unfold scan_entry in Hin. destruct (negb _ && negb _) eqn:E; [| by left].
    apply DictFacts.elem_of_set in Hin as [Hin|[= -> ->]]; [by left |].
    right. exists 0, m. split; [done |]. split; [done |].
    unfold scan_entry. rewrite E, Nat.add_0_r. by left.
  - right. exists (S j), m'. split; [done |]. split; [done |].
    by rewrite Nat.add_succ_r.
Qed.

(** X2: every entry that [scan_arp_table] stores was made from one match
    of the listing: its link address is the second group of that match put
    in upper case with colons, so it is written with digits, the letters
    A-F and colons only and is not the broadcast address, and its
    [last_seen] is the reading of the clock in that pass of the loop (each
    entry of a scan carries a reading of its own). *)
Theorem scan_mac_is_normalized (output : option string)
    (now : nat → string) (ip : string) (d : Device) :
  (ip, d) ∈ scan_arp_table output now →
  all_chars upper_hex (mac d) = true
  ∧ mac d ≠ "FF:FF:FF:FF:FF:FF"
  ∧ ∃ text i m,
      output = Some text
      ∧ Re.finditer arp_pattern text !! i = Some m
      ∧ nth 0 m EmptyString = ip
      ∧ normalize_mac (nth 1 m EmptyString) = mac d
      ∧ last_seen d = now i.
Proof.
  intros Hin. destruct output as [text|]; simpl in Hin;
    [| by apply elem_of_nil in Hin].
  apply scan_matches_origin in Hin as [Hin|(i & m & Hi & Hip & Hd)];
    [by apply elem_of_nil in Hin |].
  pose proof (list_elem_of_lookup_2 _ _ _ Hi) as Hm.
  apply ReFacts.finditer_from_match in Hm as (s' & len & Hm).
  apply arp_pattern_shape in Hm as (ip' & raw & -> & _ & Hall & Hlen).
  unfold scan_entry in Hd. cbn [nth] in *.
  destruct (String.eqb_spec (normalize_mac raw) "FF:FF:FF:FF:FF:FF")
    as [|Hne]; [by apply elem_of_nil in Hd |].
  destruct (negb (Str.startswith _ _)); [| by apply elem_of_nil in Hd].
  cbn [negb andb Dict.set] in Hd.
  apply list_elem_of_singleton in Hd as [= _ ->]. cbn [mac last_seen].
  rewrite length_normalize_mac, Hlen, Nat.eqb_refl.
  split; [by apply normalize_mac_upper_hex |]. split; [done |].
  by exists text, i, [ip'; raw].
Qed.

Example scan_two_readings :
  scan_arp_table
    (Some ("10.0.0.1 00-11-22-33-44-55 dynamic" +:+ nl +:+
           "10.0.0.2 00-11-22-33-44-66 dynamic" +:+ nl)) ticks
  = [("10.0.0.1", {| mac := "00:11:22:33:44:55"; last_seen := "T0" |});
     ("10.0.0.2", {| mac := "00:11:22:33:44:66"; last_seen := "T1" |})].
Proof. vm_compute. reflexivity. Qed.

Lemma scan_mac_is_normalized_witness :
  let text := "10.0.0.1 00-11-22-33-44-55 dynamic" +:+ nl +:+
              "10.0.0.2 00-11-22-33-44-66 dynamic" +:+ nl in
  let d := {| mac := "00:11:22:33:44:66"; last_seen := "T1" |} in
  ("10.0.0.2", d) ∈ scan_arp_table (Some text) ticks
  ∧ all_chars upper_hex (mac d) = true
  ∧ mac d ≠ "FF:FF:FF:FF:FF:FF"
  ∧ ∃ text' i m,
      Some text = Some text'
      ∧ Re.finditer arp_pattern text' !! i = Some m
      ∧ nth 0 m EmptyString = "10.0.0.2"
      ∧ normalize_mac (nth 1 m EmptyString) = mac d
      ∧ last_seen d = ticks i.
Proof.
  intros text d.
  assert (Hin : ("10.0.0.2", d) ∈ scan_arp_table (Some text) ticks).
  { subst text. rewrite scan_two_readings. right. by left. }
  split; [exact Hin |].
  exact (scan_mac_is_normalized (Some text) ticks "10.0.0.2" d Hin).
Defined.

(** The address class does not ask for pairs of digits. *)
Example scan_accepts_colons_only :
  scan_arp_table
    (Some ("10.0.0.1 ----------------- dynamic" +:+ nl)) ticks
  = [("10.0.0.1", {| mac := ":::::::::::::::::"; last_seen := "T0" |})].
Proof. vm_compute. reflexivity. Qed.

Lemma NoDup_keys_set {K V : Type} `{EqDecision K} (k : K) (v : V) d :
  NoDup (Dict.keys d) → NoDup (Dict.keys (Dict.set k v d)).
Proof.
  unfold Dict.keys. induction d as [|[k' v'] d IH]; simpl.
  - intros _. apply NoDup_singleton.
  - intros [Hk' Hd]%NoDup_cons. case_decide as Hk; simpl.
    + by apply NoDup_cons.
    + apply NoDup_cons. split; [| by apply IH].
      intros [->|Hin]%(keys_set k k' v d); [done | by apply Hk'].
Qed.

Lemma NoDup_keys_scan now i ms devices :
  NoDup (Dict.keys devices) →
  NoDup (Dict.keys (scan_matches now i ms devices)).
Proof.
  revert i devices. induction ms as [|m ms IH]; intros i devices Hd; [done |].
  simpl. apply IH. unfold scan_entry.
  destruct (negb _ && negb _); [| done]. by apply NoDup_keys_set.
Qed.

(** X3: the result of [scan_arp_table] holds each IP once, so its items
    are exactly what a lookup by IP finds. *)
Theorem scan_keys_unique (output : option string) (now : nat → string) :
  NoDup (Dict.keys (scan_arp_table output now))
  ∧ ∀ ip d, (ip, d) ∈ scan_arp_table output now
            ↔ Dict.get ip (scan_arp_table output now) = Some d.
Proof.
  assert (NoDup (Dict.keys (scan_arp_table output now))) as Hnd.
  { destruct output as [text|]; simpl; [| apply NoDup_nil_2].
    apply NoDup_keys_scan, NoDup_nil_2. }
  split; [done |]. intros ip d. split.
  - by apply DictFacts.elem_get.
  - apply DictFacts.get_Some_elem.
Qed.

(** An IP listed twice keeps its place and takes the later address and
    the later reading of the clock. *)
Example scan_later_entry_wins :
  scan_arp_table
    (Some ("10.0.0.1 00-11-22-33-44-55 dynamic" +:+ nl +:+
           "10.0.0.2 00-11-22-33-44-66 dynamic" +:+ nl +:+
           "10.0.0.1 00-11-22-33-44-77 dynamic" +:+ nl)) ticks
  = [("10.0.0.1", {| mac := "00:11:22:33:44:77"; last_seen := "T2" |});
     ("10.0.0.2", {| mac := "00:11:22:33:44:66"; last_seen := "T1" |})].
Proof. vm_compute. reflexivity. Qed.

(** ** [get_network_info] and [normalize_subnet] *)

Lemma ip_pattern_shape s len caps :
  Re.match_at ip_pattern s = Some (len, caps) →
  ∃ base, caps = [base] ∧ dotted_triple base.
Proof.
  unfold Re.match_at.
  intros (s1 & caps1 & Hm & [= <- <-])%ReFacts.rmatch_sound.
  unfold ip_pattern in Hm.
  inversion Hm as [|? ? ? ? sA capsA ? ? Hip Hrest|]; subst; clear Hm.
  apply matches_group_word in Hip as (base & caps' & -> & -> & Hlang & Hin).
  apply matches_no_group in Hin as ->; [| done].
  apply matches_no_group in Hrest as ->; [| done].
  exists base. split; [done |].
  destruct Hlang as (a & ? & -> & Ha%re_lang_octet
    & d1 & ? & -> & ->%re_lang_chr
    & b & ? & -> & Hb%re_lang_octet
    & d2 & c & -> & ->%re_lang_chr & Hc%re_lang_octet).
  exists a, b, c. split; [done |].
  split; [by apply split_dotted_triple |].
  by repeat first [apply List.Forall_cons | apply List.Forall_nil].
Qed.

Lemma dotted_triple_no_slash base :
  dotted_triple base → Str.contains "/" base = false.
Proof.
  intros (a & b & c & -> & _ & Hall).
  apply Forall_cons in Hall as [Ha Hall].
  apply Forall_cons in Hall as [Hb Hall].
  apply Forall_cons in Hall as [Hc _].
  cbn [Str.join]. rewrite !contains_app.
  rewrite (octet_no_slash a), (octet_no_slash b), (octet_no_slash c) by done.
  reflexivity.
Qed.

Lemma dotted_triple_nonempty base : dotted_triple base → base ≠ EmptyString.
Proof.
  intros (a & b & c & -> & _ & Hall) Heq.
  apply (f_equal String.length) in Heq. cbn [Str.join] in Heq.
  rewrite !StrFacts.length_app in Heq. simpl in Heq. lia.
Qed.

(** [normalize_subnet] leaves three octets as they are, and drops a
    fourth part. *)
Lemma normalize_subnet_triple base rest :
  dotted_triple base →
  (rest = EmptyString
   ∨ ∃ e, rest = "." +:+ e ∧ Str.contains "/" e = false) →
  normalize_subnet (Some (base +:+ rest)) = Some base.
Proof.
  intros Hb Hrest. pose proof (dotted_triple_no_slash _ Hb) as Hns.
  pose proof (dotted_triple_nonempty _ Hb) as Hne.
  destruct Hb as (a & b & c & -> & Hsplit & Hall).
  apply Forall_cons in Hall as [Ha Hall].
  apply Forall_cons in Hall as [Hb Hall].
  apply Forall_cons in Hall as [Hc _].
  rewrite normalize_subnet_unfold.
  2:{ intros Heq. apply (f_equal String.length) in Heq.
      rewrite StrFacts.length_app in Heq.
      destruct (Str.join "." [a; b; c]); [done | simpl in Heq; lia]. }
  rewrite StrFacts.before_no_sep.
  2:{ rewrite contains_app, Hns.
      destruct Hrest as [->|(e & -> & He)]; [done |].
      by rewrite contains_app, He. }
  cbn [Str.join] in *. destruct Hrest as [->|(e & -> & He)].
  - rewrite StrFacts.app_empty_r, Hsplit. reflexivity.
  - rewrite !app_assoc_str.
    rewrite (split_app_sep_str "." a) by by apply octet_no_dot.
    rewrite (split_app_sep_str "." b) by by apply octet_no_dot.
    rewrite (split_app_sep_str "." c) by by apply octet_no_dot.
    destruct (Str.split "." e) as [|p ps] eqn:E;
      [by destruct (StrFacts.split_nonempty "." e) |].
    reflexivity.
Qed.

(** What a match of [ip_pattern] consumes: the base, a dot and a fourth
    octet. *)
Lemma ip_pattern_match s len caps :
  Re.match_at ip_pattern s = Some (len, caps) →
  ∃ base d rest,
    caps = [base] ∧ dotted_triple base ∧ octet_text d
    ∧ s = base +:+ "." +:+ d +:+ rest.
Proof.
  intros Hm. destruct (ip_pattern_shape _ _ _ Hm) as (base & -> & Hbase).
  unfold Re.match_at in Hm.
  apply ReFacts.rmatch_sound in Hm as (s1 & caps1 & Hm & [= _ Hcaps]).
  unfold ip_pattern in Hm.
  inversion Hm as [|? ? ? ? sA capsA ? ? Hip Hrest|]; subst; clear Hm.
  apply matches_group_word in Hip as (b & caps' & -> & -> & _ & Hin).
  apply matches_no_group in Hin as ->; [| done].
  pose proof Hrest as Hc. apply matches_no_group in Hc; [| done].
  injection Hc as ->.
  apply matches_consumed in Hrest
    as (w & -> & dot & d & -> & ->%re_lang_chr & Hd%re_lang_octet).
  exists b, d, s1. split; [done |]. split; [done |]. split; [done |].
  by rewrite !app_assoc_str.
Qed.

Lemma dotted_quad_lang ip : dotted_quad ip → re_lang ip_pattern ip.
Proof.
  intros (a & b & c & e & -> & _ & Hall).
  apply Forall_cons in Hall as [Ha Hall].
  apply Forall_cons in Hall as [Hb Hall].
  apply Forall_cons in Hall as [Hc Hall].
  apply Forall_cons in Hall as [He _].
  assert (∀ w, octet_text w → re_lang octet w) as Hoct.
  { intros w (Hall & Hlo & Hhi). split; [done |]. split; [done |].
    by intros h [= <-]. }
  assert (re_lang (Re.chr ".") ".") as Hdot.
  { split; [done |]. split; [done |]. by intros h [= <-]. }
  exists (a +:+ "." +:+ b +:+ "." +:+ c), ("." +:+ e).
  split; [cbn [Str.join]; by rewrite !app_assoc_str |].
  split.
  - exists a, ("." +:+ b +:+ "." +:+ c). split; [done |]. split; [auto |].
    exists ".", (b +:+ "." +:+ c). split; [done |]. split; [done |].
    exists b, ("." +:+ c). split; [done |]. split; [auto |].
    exists ".", c. split; [done |]. split; [done | auto].
  - exists ".", e. split; [done |]. split; [done | auto].
Qed.

(** X4: what [get_network_info] finds is taken from the first place of
    the output where four groups of one to three digits stand, separated by
    dots: the base is the first three of them, the subnet is the base
    followed by [.0], and [normalize_subnet] maps both to the base, so the
    fallback of [run_monitor] gets a usable subnet. *)
Theorem get_network_info_base (output : option string)
    (subnet base : string) :
  get_network_info output = (Some subnet, Some base) →
  dotted_triple base
  ∧ subnet = base +:+ ".0"
  ∧ normalize_subnet (Some base) = Some base
  ∧ normalize_subnet (Some subnet) = Some base
  ∧ ∃ text before d rest,
      output = Some text
      ∧ text = before +:+ base +:+ "." +:+ d +:+ rest
      ∧ octet_text d
      ∧ ∀ pre ip tail,
          text = pre +:+ ip +:+ tail → dotted_quad ip →
          String.length before ≤ String.length pre.
Proof.
  unfold get_network_info. destruct output as [text|]; [| done].
  destruct (re_search ip_pattern text) as [m|] eqn:Hs; [| done].
  apply re_search_first in Hs as (n & len & Hn & Hm & Hfirst).
  apply ip_pattern_match in Hm as (b & d & rest & -> & Hb & Hd & Htext).
  cbn [nth]. intros [= <- <-].
  split; [done |]. split; [done |]. split; [| split].
  - rewrite <- (StrFacts.app_empty_r b) at 1.
    apply normalize_subnet_triple; [done | by left].
  - apply normalize_subnet_triple; [done | right]. by exists "0".
  - exists text, (Re.take n text), d, rest. split; [done |].
    split; [by rewrite <- Htext, take_drop |]. split; [done |].
    intros pre ip tail Hpre Hip. rewrite ReFacts.length_take by done.
    destruct (Nat.le_gt_cases n (String.length pre)) as [|Hlt]; [done |].
    specialize (Hfirst _ Hlt). rewrite Hpre, drop_app_length in Hfirst.
    by destruct (match_at_complete _ _ _ Hfirst (dotted_quad_lang _ Hip)).
Qed.

Definition ip_addr_sample : string :=
  "1: lo: <LOOPBACK,UP,LOWER_UP> mtu 65536" +:+ nl +:+
  "    inet 127.0.0.1/8 scope host lo" +:+ nl +:+
  "2: wlan0: <BROADCAST,MULTICAST,UP,LOWER_UP> mtu 1500" +:+ nl +:+
  "    inet 192.168.178.23/24 brd 192.168.178.255 scope global" +:+ nl.

(** On a listing that starts with the loopback interface the base is
    that of the loopback address. *)
Example get_network_info_loopback :
  get_network_info (Some ip_addr_sample) = (Some "127.0.0.0", Some "127.0.0").
Proof. reflexivity. Qed.

Lemma get_network_info_base_witness :
  get_network_info (Some ip_addr_sample) = (Some "127.0.0.0", Some "127.0.0")
  ∧ normalize_subnet (Some "127.0.0.0") = Some "127.0.0"
  ∧ ∃ text before d rest,
      Some ip_addr_sample = Some text
      ∧ text = before +:+ "127.0.0" +:+ "." +:+ d +:+ rest
      ∧ octet_text d
      ∧ ∀ pre ip tail,
          text = pre +:+ ip +:+ tail → dotted_quad ip →
          String.length before ≤ String.length pre.
Proof.
  assert (H : get_network_info (Some ip_addr_sample)
              = (Some "127.0.0.0", Some "127.0.0")) by reflexivity.
  split; [exact H |].
  exact (proj2 (proj2 (proj2 (get_network_info_base _ _ _ H)))).
Defined.

Example get_network_info_none :
  get_network_info (Some "no address here") = (None, None)
  ∧ get_network_info None = (None, None).
Proof. by split. Qed.

Lemma before_no_char c s : Str.contains c (text_before c s) = false.
Proof.
  induction s as [|a s IH]; [done |]. cbn [text_before].
  destruct (Ascii.eqb a c) eqn:E; [done |]. cbn [Str.contains]. by rewrite E.
Qed.

(** The parts of a split hold no character that the text does not hold,
    and never the separator. *)
Lemma split_parts_without x c s :
  Str.contains x s = false ∨ x = c →
  Forall (λ p, Str.contains x p = false) (Str.split c s).
Proof.
  induction s as [|a s IH]; intros Hx.
  - by apply List.Forall_cons.
  - cbn [Str.split]. destruct (Ascii.eqb_spec a c) as [->|Hac].
    + apply List.Forall_cons; [done |]. apply IH.
      destruct Hx as [Hx| ->]; [left | by right].
      cbn [Str.contains] in Hx. by destruct (Ascii.eqb c x).
    + assert (Ascii.eqb a x = false ∧ (Str.contains x s = false ∨ x = c))
        as [Hax Hs].
      { destruct Hx as [Hx| ->].
        - cbn [Str.contains] in Hx. destruct (Ascii.eqb a x); [done |].
          split; [done | by left].
        - split; [by apply Ascii.eqb_neq | by right]. }
      specialize (IH Hs).
      destruct (Str.split c s) as [|p ps]; cbn [Str.contains].
      * apply List.Forall_cons; [| done]. cbn [Str.contains]. by rewrite Hax.
      * apply Forall_cons in IH as [Hp Hps].
        apply List.Forall_cons; [| done]. cbn [Str.contains]. by rewrite Hax.
Qed.

Lemma contains_join x (sep : ascii) ps :
  Ascii.eqb sep x = false →
  Forall (λ p, Str.contains x p = false) ps →
  Str.contains x (Str.join (String sep EmptyString) ps) = false.
Proof.
  intros Hsep. induction 1 as [|p ps Hp Hps IH]; [done |].
  cbn [Str.join]. destruct ps as [|q qs]; [done |].
  rewrite !contains_app, Hp, IH. cbn [Str.contains]. by rewrite Hsep.
Qed.

Lemma split_join c ps :
  ps ≠ [] → Forall (λ p, Str.contains c p = false) ps →
  Str.split c (Str.join (String c EmptyString) ps) = ps.
Proof.
  intros Hne Hall. induction Hall as [|p ps Hp Hps IH]; [done |].
  cbn [Str.join]. destruct ps as [|q qs]; [by apply split_no_sep |].
  rewrite split_app_sep_str by done. by rewrite IH.
Qed.

Lemma split_singleton c s : length (Str.split c s) = 1 → Str.split c s = [s].
Proof.
  induction s as [|a s IH]; [done |]. cbn [Str.split].
  destruct (Ascii.eqb a c).
  - pose proof (StrFacts.split_nonempty c s) as Hne.
    destruct (Str.split c s) as [|q qs].
    + by destruct Hne.
    + cbn [length]. intros Hl. lia.
  - destruct (Str.split c s) as [|p ps] eqn:E;
      [by destruct (StrFacts.split_nonempty c s) |].
    simpl. intros Hl. destruct ps; [| simpl in Hl; lia].
    specialize (IH eq_refl). by injection IH as <-.
Qed.

(** X5: a non-empty result of [normalize_subnet] holds no slash, has one
    or three dot-separated parts, and is mapped to itself: normalizing
    twice is normalizing once. *)
Theorem normalize_subnet_idempotent (subnet : option string) (r : string) :
  normalize_subnet subnet = Some r →
  r ≠ EmptyString →
  normalize_subnet (Some r) = Some r
  ∧ Str.contains "/" r = false
  ∧ (length (Str.split "." r) = 1 ∨ length (Str.split "." r) = 3).
Proof.
  intros Hn Hr. destruct subnet as [s|]; [| done].
  destruct (decide (s = EmptyString)) as [->|Hs]; [done |].
  rewrite (normalize_subnet_unfold s Hs) in Hn. cbv zeta in Hn.
  pose proof (before_no_char "/" s) as Hslash.
  pose proof (split_parts_without "/" "." _ (or_introl Hslash)) as Hps.
  pose proof (split_parts_without "." "." (text_before "/" s)
                (or_intror eq_refl)) as Hpd.
  destruct (Nat.leb_spec 3 (length (Str.split "." (text_before "/" s))))
    as [Hlen|Hlen].
  - injection Hn as <-.
    destruct (Str.split "." (text_before "/" s)) as [|p1 [|p2 [|p3 ps]]];
      simpl in Hlen; try lia.
    cbn [take] in *.
    assert (Forall (λ p, Str.contains "." p = false) [p1; p2; p3]) as Hd.
    { apply Forall_cons in Hpd as [? Hpd]. apply Forall_cons in Hpd as [? Hpd].
      apply Forall_cons in Hpd as [? _].
      by repeat first [apply List.Forall_cons | apply List.Forall_nil]. }
    assert (Forall (λ p, Str.contains "/" p = false) [p1; p2; p3]) as Hsl.
    { apply Forall_cons in Hps as [? Hps]. apply Forall_cons in Hps as [? Hps].
      apply Forall_cons in Hps as [? _].
      by repeat first [apply List.Forall_cons | apply List.Forall_nil]. }
    pose proof (contains_join "/" "." _ eq_refl Hsl) as Hrs.
    pose proof (split_join "." [p1; p2; p3] ltac:(done) Hd) as Hsplit.
    change (take 0 ps) with (@nil string) in *.
    split; [| split; [done | right; by rewrite Hsplit]].
    rewrite (normalize_subnet_unfold _ Hr), (StrFacts.before_no_sep _ _ Hrs).
    by rewrite Hsplit.
  - destruct (Nat.eqb_spec
                (length (Str.split "." (text_before "/" s))) 1) as [H1|];
      [| done].
    injection Hn as <-.
    split; [| split; [done | by left]].
    rewrite (normalize_subnet_unfold _ Hr), (StrFacts.before_no_sep _ _ Hslash).
    cbv zeta. rewrite (split_singleton _ _ H1). reflexivity.
Qed.

Lemma normalize_subnet_idempotent_witness :
  normalize_subnet (Some "10.20.30.40/24") = Some "10.20.30"
  ∧ normalize_subnet (Some "10.20.30") = Some "10.20.30".
Proof.
  assert (H : normalize_subnet (Some "10.20.30.40/24") = Some "10.20.30")
    by reflexivity.
  split; [exact H |].
  refine (proj1 (normalize_subnet_idempotent _ _ H _)). discriminate.
Defined.

(** The one result that is not kept: a text that starts with a slash
    gives the empty string, which [normalize_subnet] maps to [None]. *)
Example normalize_subnet_leading_slash :
  normalize_subnet (Some "/24") = Some EmptyString
  ∧ normalize_subnet (Some EmptyString) = None.
Proof. by split. Qed.

(** ** The sweep *)

Lemma ping_target_inj (subnet_base : string) :
  Inj (=) (=) (λ i : nat, subnet_base +:+ "." +:+ pretty i).
Proof.
  intros i j Heq. apply (inj (String.app subnet_base)) in Heq.
  apply (inj (String.app ".")) in Heq. by apply (inj pretty).
Qed.

(** X6: a sweep pings 254 addresses, no address twice: the base followed
    by [.1] to [.254], and neither [.0] nor [.255]. *)
Theorem ping_targets_cover (subnet_base : string) :
  length (ping_targets subnet_base) = 254
  ∧ NoDup (ping_targets subnet_base)
  ∧ (∀ t, t ∈ ping_targets subnet_base
          ↔ ∃ i : nat, 1 ≤ i ≤ 254 ∧ t = subnet_base +:+ "." +:+ pretty i)
  ∧ ¬ (subnet_base +:+ ".0" ∈ ping_targets subnet_base)
  ∧ ¬ (subnet_base +:+ ".255" ∈ ping_targets subnet_base).
Proof.
  pose proof (ping_target_inj subnet_base) as Hinj.
  assert (∀ t, t ∈ ping_targets subnet_base
               ↔ ∃ i : nat, 1 ≤ i ≤ 254
                            ∧ t = subnet_base +:+ "." +:+ pretty i) as Hin.
  { intros t. unfold ping_targets. rewrite list_elem_of_fmap. split.
    - intros (i & -> & Hi%elem_of_seq). exists i. split; [lia | done].
    - intros (i & Hi & ->). exists i. split; [done |].
      apply elem_of_seq. lia. }
  split; [unfold ping_targets; by rewrite length_fmap, length_seq |].
  split; [unfold ping_targets; apply (NoDup_fmap_2 _), NoDup_seq |].
  split; [done |]. split.
  - intros (i & Hi & Heq)%Hin.
    change (subnet_base +:+ ".0")
      with (subnet_base +:+ "." +:+ pretty 0) in Heq.
    apply Hinj in Heq. lia.
  - intros (i & Hi & Heq)%Hin.
    change (subnet_base +:+ ".255")
      with (subnet_base +:+ "." +:+ pretty 255) in Heq.
    apply Hinj in Heq. lia.
Qed.

Example ping_targets_ends :
  head (ping_targets "192.168.178") = Some "192.168.178.1"
  ∧ last (ping_targets "192.168.178") = Some "192.168.178.254".
Proof. split; vm_compute; reflexivity. Qed.

(** A pool of no workers cannot be built: the sweep returns nothing,
    whatever the neighbour table holds. *)
Example discover_devices_no_workers :
  discover_devices
    {| scan_interval := 10; state_file := "wlan_status.json";
       log_file := "wlan_connection_log.txt"; subnet := "192.168.178.0";
       max_log_size_kb := 500; ping_workers := 0; ping_timeout := 2 |}
    "192.168.1" (λ _, true) (Some arp_sample) ticks = [].
Proof. reflexivity. Qed.

(** ** State store: loading *)

Lemma Forall_set {K V : Type} `{EqDecision K} (P : K * V → Prop)
    (k : K) (v : V) d :
  (∀ k', P (k', v)) → Forall P d → Forall P (Dict.set k v d).
Proof.
  intros Hv. induction 1 as [|[k' v'] d Hx Hd IH]; simpl.
  - by apply List.Forall_cons.
  - case_decide; apply List.Forall_cons; auto.
Qed.

(** What the migration stores is never in the legacy schema. *)
Lemma migrate_no_ip now items acc new_devices :
  migrate now items acc = Some new_devices →
  Forall (λ e, has_ip e.2 = false) acc →
  Forall (λ e, has_ip e.2 = false) new_devices.
Proof.
  revert acc. induction items as [|[k info] items IH]; intros acc; simpl.
  - by intros [= <-].
  - destruct info as [| | | | |f]; try done.
    destruct (truthy _); [| apply IH].
    destruct (as_key _) as [ip_key|]; [| done].
    intros Hm Hacc. apply (IH _ Hm). by apply Forall_set.
Qed.

Lemma load_data_stable now now' data data' :
  load_data now data = Some data' → load_data now' data' = Some data'.
Proof.
  destruct data as [| | |s|l|top]; try done.
  - simpl. destruct (Str.infix "devices" s) eqn:E; [done |].
    intros [= <-]. simpl. by rewrite E.
  - simpl. destruct (existsb _ l) eqn:E; [done |].
    intros [= <-]. simpl. by rewrite E.
  - unfold load_data at 1.
    destruct (Dict.get (KStr "devices") top) as [devices|] eqn:Hdev.
    2:{ intros [= <-]. simpl. by rewrite Hdev. }
    destruct (truthy devices) eqn:Ht.
    2:{ intros [= <-]. simpl. by rewrite Hdev, Ht. }
    destruct devices as [| | | | |[|[k0 v0] rest]]; try done.
    destruct (has_ip v0) eqn:Hip.
    2:{ intros [= <-]. simpl. by rewrite Hdev, Hip. }
    destruct (migrate now ((k0, v0) :: rest) []) as [new|] eqn:Hm; [| done].
    intros [= <-]. apply migrate_no_ip in Hm; [| done].
    unfold load_data. rewrite DictFacts.get_set_eq.
    destruct new as [|[k1 v1] new]; [done |].
    apply Forall_cons in Hm as [Hv1 _]. simpl in Hv1.
    cbn [truthy length Nat.eqb negb]. by rewrite Hv1.
Qed.

Lemma json_exact_get d k v :
  json_exact (PDict d) = true → Dict.get k d = Some v → json_exact v = true.
Proof.
  induction d as [|[k' v'] d IH]; [done |]. cbn [json_exact forallb Dict.get].
  intros [Hv Hd]%andb_true_iff. case_decide.
  - intros [= <-]. by destruct k'.
  - by apply IH.
Qed.

Lemma json_exact_set d s v :
  json_exact (PDict d) = true → json_exact v = true →
  json_exact (PDict (Dict.set (KStr s) v d)) = true.
Proof.
  intros Hd Hv. induction d as [|[k' v'] d IH].
  - cbn [Dict.set json_exact forallb]. by rewrite Hv.
  - cbn [json_exact forallb] in Hd. apply andb_true_iff in Hd as [Hv' Hd].
    cbn [Dict.set]. case_decide as Hk.
    + subst k'. cbn [json_exact forallb]. by rewrite Hv, Hd.
    + cbn [json_exact forallb]. rewrite Hv'. by apply IH.
Qed.

Lemma migrate_json_exact now items acc new_devices :
  Forall old_or_new_item items →
  json_exact (PDict items) = true → json_exact (PDict acc) = true →
  migrate now items acc = Some new_devices →
  json_exact (PDict new_devices) = true.
Proof.
  intros Hitems. revert acc.
  induction Hitems as [|[mac info] items (f & Hf & Hip) _ IH]; intros acc.
  - by intros _ ? [= <-].
  - simpl in Hf. subst info. cbn [json_exact forallb].
    intros [Hinfo Hrest]%andb_true_iff Hacc. cbn [migrate].
    destruct mac as [| |mac]; try done.
    destruct Hip as [Hip|[ip Hip]]; rewrite Hip; simpl; [by apply IH |].
    destruct (String.eqb ip EmptyString); simpl; [by apply IH |].
    apply IH; [done |]. apply json_exact_set; [done |].
    cbn [json_exact forallb key_value]. rewrite andb_true_r.
    destruct (Dict.get (KStr "last_seen") f) as [seen|] eqn:Hs; [| done].
    by apply (json_exact_get f (KStr "last_seen")).
Qed.

(** What [load_state] makes of a JSON file whose ["ip"] fields are
    strings has string keys only. *)
Lemma load_state_json_exact fs path now :
  (∀ data, fs !! path = Some (Json data) → json_exact data = true) →
  (∀ top items,
     fs !! path = Some (Json (PDict top)) →
     Dict.get (KStr "devices") top = Some (PDict items) →
     Forall old_or_new_item items) →
  json_exact (load_state fs path now) = true.
Proof.
  intros Hexact Hitems. unfold load_state.
  destruct (fs !! path) as [[data|]|]; [| done | done].
  specialize (Hexact data eq_refl).
  destruct (load_data now data) as [data'|] eqn:Hl; [| done]. simpl.
  destruct data as [| | |s|l|top]; try done.
  - simpl in Hl. by destruct (Str.infix _ _); [| injection Hl as <-].
  - simpl in Hl. by destruct (existsb _ _); [| injection Hl as <-].
  - unfold load_data in Hl.
    destruct (Dict.get (KStr "devices") top) as [devices|] eqn:Hdev;
      [| by injection Hl as <-].
    destruct (truthy devices); [| by injection Hl as <-].
    destruct devices as [| | | | |[|[k0 v0] rest]]; try done.
    specialize (Hitems top _ eq_refl Hdev).
    destruct (has_ip v0); [| by injection Hl as <-].
    destruct (migrate now ((k0, v0) :: rest) []) as [new|] eqn:Hm; [| done].
    injection Hl as <-. apply json_exact_set; [done |].
    apply (migrate_json_exact now _ [] new Hitems); [| done | done].
    by apply (json_exact_get top (KStr "devices")).
Qed.

(** X7: what [load_state] returns is in the current schema.  When it has
    string keys only, so that [json.dump] writes it and [json.load] reads
    it back as it is, then written to the state file and loaded again it
    comes back unchanged: a migrated snapshot is not migrated a second
    time, and what loaded once is not refused later. *)
Theorem load_state_stable (fs : gmap Path content) (path : Path)
    (now now' : string) :
  json_exact (load_state fs path now) = true →
  load_data now' (load_state fs path now) = Some (load_state fs path now)
  ∧ load_state (<[path := Json (load_state fs path now)]> fs) path now'
    = load_state fs path now.
Proof.
  intros _.
  assert (load_data now' (load_state fs path now)
          = Some (load_state fs path now)) as Hst.
  { unfold load_state. destruct (fs !! path) as [[data|]|]; try done.
    destruct (load_data now data) as [data'|] eqn:Hl; [| done].
    by eapply load_data_stable. }
  split; [done |]. unfold load_state at 1.
  by rewrite lookup_insert_eq, Hst.
Qed.

Lemma load_state_stable_witness :
  let fs : gmap Path content := {[ state_path := Json legacy_file ]} in
  let loaded := load_state fs state_path "T1" in
  json_exact loaded = true
  ∧ load_state (<[state_path := Json loaded]> fs) state_path "T2" = loaded.
Proof.
  intros fs loaded.
  assert (Hexact : json_exact loaded = true) by (vm_compute; reflexivity).
  split; [exact Hexact |].
  exact (proj2 (load_state_stable fs state_path "T1" "T2" Hexact)).
Defined.

(** A legacy item whose ["ip"] is a number gives a key that is not a
    string: written back, it would be read as the string ["5"]. *)
Example load_state_number_key :
  load_data "now"
    (PDict [(KStr "devices",
             PDict [(KStr "AA:BB:CC:DD:EE:FF",
                     PDict [(KStr "ip", PInt 5);
                            (KStr "last_seen", PStr "T")])])])
  = Some (PDict [(KStr "devices",
                  PDict [(KInt 5,
                          PDict [(KStr "mac", PStr "AA:BB:CC:DD:EE:FF");
                                 (KStr "last_seen", PStr "T")])])])
  ∧ json_exact
      (PDict [(KStr "devices",
               PDict [(KInt 5,
                       PDict [(KStr "mac", PStr "AA:BB:CC:DD:EE:FF");
                              (KStr "last_seen", PStr "T")])])]) = false.
Proof. by split. Qed.

(** ** State store: saving *)

(** [save_state] touches the target and its temporary file only. *)
Lemma save_state_frame fs path devices now flt p :
  p ≠ path →
  with_suffix path (suffix path +:+ ".tmp") ≠ Some p →
  (save_state fs path devices now flt).2 !! p = fs !! p.
Proof.
  intros Hp Htmp. unfold save_state.
  destruct (with_suffix path _) as [temp_path|]; [| done].
  assert (temp_path ≠ p) as Hne by congruence.
  destruct flt; simpl; rewrite ?lookup_insert_ne by done; try done.
  unfold replace_file. rewrite lookup_insert_eq.
  rewrite lookup_insert_ne by done. rewrite lookup_delete_ne by done.
  by rewrite lookup_insert_ne.
Qed.

(** X8: a save that works puts things right after a save that failed,
    wherever that one failed: the target holds the new snapshot, the
    temporary file the failed save may have left is gone, and no other file
    has changed. *)
Theorem save_state_retry (fs : gmap Path content) (path : Path)
    (devices1 devices2 : DeviceSet) (now1 now2 : string) (flt : io_fault) :
  name path ≠ EmptyString →
  let fs1 := (save_state fs path devices1 now1 flt).2 in
  let result := save_state fs1 path devices2 now2 NoFault in
  result.1 = true
  ∧ result.2 !! path = Some (Json (snapshot devices2 now2))
  ∧ (∀ temp_path,
       with_suffix path (suffix path +:+ ".tmp") = Some temp_path →
       result.2 !! temp_path = None)
  ∧ (∀ p, p ≠ path →
          with_suffix path (suffix path +:+ ".tmp") ≠ Some p →
          result.2 !! p = fs !! p).
Proof.
  intros Hname fs1 result.
  destruct result as [ok fs2] eqn:Hres. subst result. cbn [fst snd].
  destruct ok.
  - pose proof (save_state_true _ _ _ _ _ _ Hres) as (_ & _ & Hp & Ht).
    repeat split; try done.
    intros p Hp1 Hp2.
    pose proof (save_state_frame fs1 path devices2 now2 NoFault p Hp1 Hp2)
      as Hf.
    rewrite Hres in Hf. cbn [snd] in Hf. rewrite Hf. subst fs1.
    by apply save_state_frame.
  - apply save_state_false in Hres as [[?|?] _]; done.
Qed.

Lemma save_state_retry_witness :
  name state_path ≠ EmptyString
  ∧ (save_state
       (save_state ∅ state_path one_device "T1" WriteFails).2
       state_path two_devices "T2" NoFault).2 !! state_path
    = Some (Json (snapshot two_devices "T2")).
Proof.
  assert (Hname : name state_path ≠ EmptyString) by discriminate.
  split; [exact Hname |].
  exact (proj1 (proj2 (save_state_retry ∅ state_path one_device two_devices
                         "T1" "T2" WriteFails Hname))).
Defined.

(** ** State store: mixed and damaged files *)



Definition mixed_file : pyval :=
  PDict [(KStr "devices",
          PDict [(KStr "AA:BB:CC:DD:EE:FF",
                  PDict [(KStr "ip", PStr "10.0.0.5")]);
                 (KStr "10.0.0.7",
                  PDict [(KStr "mac", PStr "11:22:33:44:55:66");
                         (KStr "last_seen", PStr "T")])]);
         (KStr "last_scan", PStr "T")].

(** A device already stored under its IP is lost when the first item is
    a legacy one; a legacy item without [last_seen] gets the clock
    reading. *)
Example load_state_mixed_file :
  load_data "now" mixed_file
  = Some (PDict [(KStr "devices",
                  PDict [(KStr "10.0.0.5",
                          PDict [(KStr "mac", PStr "AA:BB:CC:DD:EE:FF");
                                 (KStr "last_seen", PStr "now")])]);
                 (KStr "last_scan", PStr "T")]).
Proof. reflexivity. Qed.


Lemma migrate_non_dict now items acc k v :
  (k, v) ∈ items → ¬ is_dict v → migrate now items acc = None.
Proof.
  intros Hin Hv. revert acc.
  induction items as [|[k' info] items IH]; intros acc;
    [by apply elem_of_nil in Hin |].
  cbn [migrate]. destruct info as [| | | | |f]; try done.
  apply elem_of_cons in Hin as [[= -> ->]|Hin]; [destruct Hv; by eexists |].
  destruct (truthy _); [| by apply IH].
  destruct (as_key _); [by apply IH | done].
Qed.

(** X10: when the first item of the devices mapping is in the legacy
    schema and some item of the mapping is not a dictionary, [load_state]
    gives up and returns the empty snapshot: every stored device is
    forgotten. *)
Theorem load_state_bad_item_loses_all (fs : gmap Path content) (path : Path)
    (now : string) (top : list (pykey * pyval)) (k0 : pykey) (v0 : pyval)
    (rest : list (pykey * pyval)) (k : pykey) (v : pyval) :
  fs !! path = Some (Json (PDict top)) →
  Dict.get (KStr "devices") top = Some (PDict ((k0, v0) :: rest)) →
  has_ip v0 = true →
  (k, v) ∈ (k0, v0) :: rest →
  ¬ is_dict v →
  load_state fs path now = empty_snapshot.
Proof.
  intros Hfile Hdev Hip Hin Hv. unfold load_state, load_data.
  rewrite Hfile, Hdev. cbn [truthy length Nat.eqb negb]. rewrite Hip.
  by rewrite (migrate_non_dict now _ [] k v Hin Hv).
Qed.

Definition damaged_file : pyval :=
  PDict [(KStr "devices",
          PDict [(KStr "AA:BB:CC:DD:EE:FF",
                  PDict [(KStr "ip", PStr "10.0.0.5")]);
                 (KStr "11:22:33:44:55:66", PStr "10.0.0.7")]);
         (KStr "last_scan", PStr "T")].

Lemma load_state_bad_item_loses_all_witness :
  load_state {[ state_path := Json damaged_file ]} state_path "now"
  = empty_snapshot.
Proof.
  apply (load_state_bad_item_loses_all _ _ _
           [(KStr "devices",
             PDict [(KStr "AA:BB:CC:DD:EE:FF",
                     PDict [(KStr "ip", PStr "10.0.0.5")]);
                    (KStr "11:22:33:44:55:66", PStr "10.0.0.7")]);
            (KStr "last_scan", PStr "T")]
           (KStr "AA:BB:CC:DD:EE:FF") (PDict [(KStr "ip", PStr "10.0.0.5")])
           [(KStr "11:22:33:44:55:66", PStr "10.0.0.7")]
           (KStr "11:22:33:44:55:66") (PStr "10.0.0.7")).
  - apply lookup_singleton_eq.
  - reflexivity.
  - reflexivity.
  - right. by left.
  - intros [f Hf]. discriminate.
Defined.

(** ** Reconciliation: what the events carry *)

Lemma keys_devices_items (D : DeviceSet) :
  Dict.keys (devices_items D) = KStr <$> Dict.keys D.
Proof.
  unfold Dict.keys, devices_items.
  induction D as [|[ip d] D IH]; [done |]. simpl. by f_equal.
Qed.

Lemma get_devices_items (D : DeviceSet) ip :
  Dict.get (KStr ip) (devices_items D) = device_py <$> Dict.get ip D.
Proof.
  induction D as [|[ip' d] D IH]; [done |]. simpl.
  destruct (decide (ip' = ip)) as [->|Hne].
  - by rewrite decide_True.
  - rewrite decide_False by congruence. apply IH.
Qed.

(** X11: on a well-formed previous snapshot every VERBUNDEN event carries
    the link address the current scan found for its IP, and every GETRENNT
    event the link address the previous snapshot holds for it (or
    [UNKNOWN] when that entry has no ["mac"]). *)
Theorem events_carry_link_address `{SetOrder} (current : DeviceSet)
    (previous : pyval) (prev_devices : list (pykey * pyval)) (e : event) :
  snapshot_devices previous prev_devices →
  e ∈ (reconcile current previous).1 →
  (ev_kind e = VERBUNDEN
   ∧ ∃ ip d, ev_ip e = KStr ip ∧ Dict.get ip current = Some d
             ∧ ev_mac e = PStr (mac d))
  ∨ (ev_kind e = GETRENNT
     ∧ ∃ f, Dict.get (ev_ip e) prev_devices = Some (PDict f)
            ∧ ev_mac e
              = default (PStr "UNKNOWN") (Dict.get (KStr "mac") f)).
Proof.
  intros Hwf. rewrite (reconcile_events _ _ _ Hwf). cbn [fst].
  destruct Hwf as (top & -> & Hdev & Hdicts).
  intros [He|He]%elem_of_app;
    apply list_elem_of_fmap in He as (k & -> & Hk); [left | right];
    (split; [done |]).
  - apply elem_of_joined in Hk as [Hk _].
    rewrite keys_devices_items in Hk.
    apply list_elem_of_fmap in Hk as (ip & -> & Hip).
    apply DictFacts.get_is_Some in Hip as [d Hd].
    exists ip, d. split; [done |]. split; [done |].
    unfold event_for. cbn [ev_mac]. by rewrite get_devices_items, Hd.
  - apply elem_of_left in Hk as [Hk _].
    apply DictFacts.get_is_Some in Hk as [v Hv].
    pose proof (DictFacts.get_Some_elem _ _ _ Hv) as Hin.
    apply (proj1 (Forall_forall _ _) Hdicts) in Hin. simpl in Hin.
    destruct Hin as [f ->].
    exists f. split; [done |].
    unfold event_for. cbn [ev_mac ev_ip]. by rewrite Hv.
Qed.

Lemma events_carry_link_address_witness :
  let e := {| ev_kind := VERBUNDEN; ev_ip := KStr "192.168.1.9";
              ev_mac := PStr "66:77:88:99:AA:BB" |} in
  (ev_kind e = VERBUNDEN
   ∧ ∃ ip d, ev_ip e = KStr ip ∧ Dict.get ip two_devices = Some d
             ∧ ev_mac e = PStr (mac d))
  ∨ (ev_kind e = GETRENNT
     ∧ ∃ f, Dict.get (ev_ip e) (devices_items one_device) = Some (PDict f)
            ∧ ev_mac e
              = default (PStr "UNKNOWN") (Dict.get (KStr "mac") f)).
Proof.
  intros e.
  apply (events_carry_link_address (H := elements_order) two_devices
           (snapshot one_device "T0") (devices_items one_device) e).
  - apply snapshot_devices_snapshot.
  - rewrite reconcile_one_joined. by left.
Defined.

#[local] Instance KStr_inj : Inj (=) (=) KStr.
Proof. by intros ? ? [= ->]. Qed.

(** X12: with no state file, or one that cannot be read, every IP of the
    scan is reported once as VERBUNDEN and nothing as GETRENNT. *)
Theorem first_pass_reports_all `{SetOrder} (fs : gmap Path content)
    (path : Path) (now : string) (current : DeviceSet) :
  fs !! path = None ∨ fs !! path = Some Garbage →
  NoDup (Dict.keys current) →
  ∃ evs,
    reconcile current (load_state fs path now) = (evs, true)
    ∧ Forall (λ e, ev_kind e = VERBUNDEN) evs
    ∧ ev_ip <$> evs ≡ₚ KStr <$> Dict.keys current.
Proof.
  intros Hfile Hnd.
  assert (load_state fs path now = empty_snapshot) as ->.
  { unfold load_state. by destruct Hfile as [-> | ->]. }
  assert (snapshot_devices empty_snapshot []) as Hwf.
  { eexists. by repeat split. }
  eexists. split; [by apply reconcile_events |].
  unfold joined, left. cbn [Dict.keys fmap list_fmap list_to_set].
  rewrite difference_empty_L, empty_difference_L.
  rewrite set_iter_empty, app_nil_r. split.
  - apply Forall_fmap, Forall_forall. by intros.
  - rewrite ev_ip_event_for, (set_iter_perm _), keys_devices_items.
    apply elements_list_to_set, (NoDup_fmap_2 _), Hnd.
Qed.

Lemma first_pass_reports_all_witness :
  ∃ evs,
    reconcile (H := elements_order) two_devices
      (load_state ∅ state_path "now") = (evs, true)
    ∧ Forall (λ e, ev_kind e = VERBUNDEN) evs
    ∧ ev_ip <$> evs ≡ₚ KStr <$> Dict.keys two_devices.
Proof.
  apply (first_pass_reports_all (H := elements_order) ∅ state_path "now"
           two_devices).
  - left. apply lookup_empty.
  - unfold two_devices, Dict.keys. cbn [fmap list_fmap fst].
    apply NoDup_cons. split; [| apply NoDup_singleton].
    intros Hin%list_elem_of_singleton. discriminate.
Defined.

(** ** Event sink: what happens to the log text *)

Lemma rotate_log_file_lookup cfg fs log stamp flt text :
  fs !! log = Some text →
  rotate_log_file cfg fs log stamp flt = fs
  ∨ (rotate_log_file cfg fs log stamp flt
     = <[backup_path log stamp := text]> (delete log fs)
     ∧ rename_fails flt = false
     ∧ (N.of_nat (max_log_size_kb cfg) * 1024
        ≤ N.of_nat (String.length text))%N).
Proof.
  intros Hfile. unfold rotate_log_file. rewrite Hfile. simpl.
  destruct (N.leb_spec (N.of_nat (max_log_size_kb cfg) * 1024)
              (N.of_nat (String.length text))); [| by left].
  destruct (rename_fails flt) eqn:E; [by left | by right].
Qed.

(** X13: whatever fails, [append_log] does not lose what the log file
    held: afterwards the old text is still the beginning of the log file,
    or it is the whole of the backup file.  When the write works, the log
    file ends with the new line. *)
Theorem append_log_keeps_text (cfg : Config) (fs : gmap Path string)
    (log : Path) (event ip : string) (mac : option string)
    (stamp timestamp text : string) (flt : log_faults) :
  fs !! log = Some text →
  let line := log_line timestamp event ip mac in
  let fs' := (append_log cfg fs log event ip mac stamp timestamp flt).1 in
  ((∃ rest, fs' !! log = Some (text +:+ rest))
   ∨ fs' !! backup_path log stamp = Some text)
  ∧ (append_step flt = AppendWorks →
     ∃ before, fs' !! log = Some (before +:+ line)).
Proof.
  intros Hfile line fs'. subst fs'. unfold append_log. cbn [fst].
  pose proof (backup_path_ne log stamp) as Hne.
  destruct (rotate_log_file_lookup cfg fs log stamp flt text Hfile)
    as [->|(-> & _ & _)]; unfold append_file.
  - destruct (append_step flt) as [| |n].
    + rewrite lookup_insert_eq, Hfile. simpl.
      split; [left; by eexists | intros _; by eexists].
    + split; [| done]. left. exists EmptyString.
      by rewrite StrFacts.app_empty_r.
    + rewrite lookup_insert_eq, Hfile. simpl.
      split; [left; by eexists | done].
  - destruct (append_step flt) as [| |n].
    + rewrite lookup_insert_eq.
      rewrite (lookup_insert_ne _ log (backup_path log stamp)) by done.
      rewrite lookup_insert_eq. split; [by right |].
      intros _. by eexists.
    + split; [| done]. right. apply lookup_insert_eq.
    + split; [right | done].
      rewrite (lookup_insert_ne _ log (backup_path log stamp)) by done.
      apply lookup_insert_eq.
Qed.

Lemma append_log_keeps_text_witness :
  let fs : gmap Path string := {[ log_path := "old" +:+ nl ]} in
  let fs' :=
    (append_log CONFIG fs log_path "GETRENNT" "192.168.1.9" None
       "20240131_235959" "2024-01-31 23:59:59"
       {| rename_fails := true; append_step := AppendWriteFails 5 |}).1 in
  fs !! log_path = Some ("old" +:+ nl)
  ∧ ((∃ rest, fs' !! log_path = Some (("old" +:+ nl) +:+ rest))
     ∨ fs' !! backup_path log_path "20240131_235959" = Some ("old" +:+ nl)).
Proof.
  intros fs fs'.
  assert (Hfile : fs !! log_path = Some ("old" +:+ nl))
    by apply lookup_singleton_eq.
  split; [exact Hfile |].
  exact (proj1 (append_log_keeps_text CONFIG fs log_path "GETRENNT"
                  "192.168.1.9" None "20240131_235959"
                  "2024-01-31 23:59:59" ("old" +:+ nl)
                  {| rename_fails := true;
                     append_step := AppendWriteFails 5 |} Hfile)).
Defined.

(** X14: when there is no log file, [append_log] renames nothing and no
    other file changes.  The log file is created with the new line alone
    when the write works; when [open] fails there is still no log file;
    when the write fails after [open] has created the file, the file is
    there and holds a beginning of the line, which may be empty. *)
Theorem append_log_creates_file (cfg : Config) (fs : gmap Path string)
    (log : Path) (event ip : string) (mac : option string)
    (stamp timestamp : string) (flt : log_faults) :
  fs !! log = None →
  let line := log_line timestamp event ip mac in
  let fs' := (append_log cfg fs log event ip mac stamp timestamp flt).1 in
  (append_step flt = AppendWorks → fs' !! log = Some line)
  ∧ (append_step flt = AppendOpenFails → fs' !! log = None)
  ∧ (∀ written, append_step flt = AppendWriteFails written →
       ∃ part rest, fs' !! log = Some part ∧ line = part +:+ rest
                    ∧ String.length part = written `min` String.length line)
  ∧ ∀ p, p ≠ log → fs' !! p = fs !! p.
Proof.
  intros Hfile line fs'. subst fs'.
  unfold append_log, rotate_log_file, append_file.
  rewrite Hfile. cbn [fst]. fold line.
  destruct (append_step flt) as [| |n].
  - rewrite lookup_insert_eq, Hfile. repeat split; try done.
    intros p Hp. by rewrite lookup_insert_ne.
  - repeat split; done.
  - rewrite lookup_insert_eq, Hfile. repeat split; try done.
    + intros written [= <-]. exists (Re.take n line), (Re.drop n line).
      split; [done |]. split; [by rewrite take_drop |].
      apply length_take_min.
    + intros p Hp. by rewrite lookup_insert_ne.
Qed.

Lemma append_log_creates_file_witness :
  let line := log_line "2024-01-31 23:59:59" "VERBUNDEN" "192.168.1.9" None in
  let fs' flt :=
    (append_log CONFIG ∅ log_path "VERBUNDEN" "192.168.1.9" None
       "20240131_235959" "2024-01-31 23:59:59" flt).1 in
  (∅ : gmap Path string) !! log_path = None
  ∧ fs' no_log_faults !! log_path = Some line
  ∧ ∃ part rest,
      fs' {| rename_fails := false; append_step := AppendWriteFails 0 |}
        !! log_path = Some part
      ∧ line = part +:+ rest ∧ String.length part = 0.
Proof.
  intros line fs'.
  assert (Hfile : (∅ : gmap Path string) !! log_path = None)
    by apply lookup_empty.
  split; [exact Hfile |]. split.
  - exact (proj1 (append_log_creates_file CONFIG ∅ log_path "VERBUNDEN"
                    "192.168.1.9" None "20240131_235959"
                    "2024-01-31 23:59:59" no_log_faults Hfile) eq_refl).
  - exact (proj1 (proj2 (proj2
             (append_log_creates_file CONFIG ∅ log_path "VERBUNDEN"
                "192.168.1.9" None "20240131_235959" "2024-01-31 23:59:59"
                {| rename_fails := false;
                   append_step := AppendWriteFails 0 |} Hfile)))
             0 eq_refl).
Defined.

(** X15: rotating twice is rotating once: after a call of
    [rotate_log_file], a second call under the same conditions changes
    nothing, whatever its time stamp. *)
Theorem rotate_log_file_twice (cfg : Config) (fs : gmap Path string)
    (log : Path) (stamp stamp' : string) (flt : log_faults) :
  rotate_log_file cfg (rotate_log_file cfg fs log stamp flt) log stamp' flt
  = rotate_log_file cfg fs log stamp flt.
Proof.
  destruct (fs !! log) as [text|] eqn:Hfile.
  - destruct (rotate_log_file_lookup cfg fs log stamp flt text Hfile)
      as [Hsame|(-> & Hren & Hsize)].
    + rewrite Hsame. unfold rotate_log_file in *. rewrite Hfile in *.
      simpl in *.
      destruct (_ <=? _)%N; [| done]. destruct (rename_fails flt); [done |].
      exfalso. apply (f_equal (λ m, m !! log)) in Hsame.
      rewrite Hfile in Hsame.
      rewrite lookup_insert_ne in Hsame by apply backup_path_ne.
      by rewrite lookup_delete_eq in Hsame.
    + unfold rotate_log_file at 1.
      rewrite lookup_insert_ne by apply backup_path_ne.
      by rewrite lookup_delete_eq.
  - unfold rotate_log_file. by rewrite Hfile, Hfile.
Qed.

(** ** Event sink: one line per event *)

Lemma count_char_app c (s t : string) :
  count_char c (s +:+ t) = count_char c s + count_char c t.
Proof.
  induction s as [|a s IH]; [done |]. rewrite StrFacts.app_cons.
  cbn [count_char]. rewrite IH. lia.
Qed.

Lemma count_char_none c s : Str.contains c s = false → count_char c s = 0.
Proof.
  induction s as [|a s IH]; [done |]. cbn [Str.contains count_char].
  destruct (Ascii.eqb a c); [done |]. intros Hs. by rewrite IH.
Qed.

(** X16: when the time stamp, the event, the IP and the link address hold
    no line break, the text [append_log] writes is a single line, and
    adding it to a log file below the threshold makes the file one line
    longer. *)
Theorem append_log_adds_one_line (cfg : Config) (fs : gmap Path string)
    (log : Path) (event ip : string) (mac : option string)
    (stamp timestamp text : string) :
  Str.contains (ascii_of_nat 10) timestamp = false →
  Str.contains (ascii_of_nat 10) event = false →
  Str.contains (ascii_of_nat 10) ip = false →
  Str.contains (ascii_of_nat 10) (mac_str mac) = false →
  fs !! log = Some text →
  (N.of_nat (String.length text)
   < N.of_nat (max_log_size_kb cfg) * 1024)%N →
  let line := log_line timestamp event ip mac in
  let fs' := (append_log cfg fs log event ip mac stamp timestamp
                no_log_faults).1 in
  count_char (ascii_of_nat 10) line = 1
  ∧ ∃ text', fs' !! log = Some text'
             ∧ count_char (ascii_of_nat 10) text'
               = count_char (ascii_of_nat 10) text + 1.
Proof.
  intros Hts Hev Hip Hmac Hfile Hsize line fs'.
  assert (count_char (ascii_of_nat 10) line = 1) as Hline.
  { subst line. unfold log_line. rewrite !count_char_app.
    rewrite (count_char_none _ _ Hts), (count_char_none _ _ Hev),
      (count_char_none _ _ Hip), (count_char_none _ _ Hmac).
    reflexivity. }
  split; [done |]. subst fs'.
  unfold append_log, rotate_log_file, append_file. rewrite Hfile. simpl.
  destruct (N.leb_spec (N.of_nat (max_log_size_kb cfg) * 1024)
              (N.of_nat (String.length text))); [lia |].
  rewrite lookup_insert_eq, Hfile. simpl.
  eexists. split; [done |]. fold line. by rewrite count_char_app, Hline.
Qed.

Lemma append_log_adds_one_line_witness :
  let fs : gmap Path string := {[ log_path := "old" +:+ nl ]} in
  count_char (ascii_of_nat 10)
    (log_line "2024-01-31 23:59:59" "VERBUNDEN" "192.168.1.9" None) = 1.
Proof.
  intros fs.
  refine (proj1 (append_log_adds_one_line CONFIG fs log_path "VERBUNDEN"
                   "192.168.1.9" None "20240131_235959"
                   "2024-01-31 23:59:59" ("old" +:+ nl) _ _ _ _ _ _));
    reflexivity.
Defined.

(** An IP taken from the state file may hold a line break, and then the
    entry is more than one line. *)
Example log_line_with_line_break :
  count_char (ascii_of_nat 10)
    (log_line "2024-01-31 23:59:59" "GETRENNT" ("10.0.0.5" +:+ nl +:+ "x")
       None) = 2.
Proof. reflexivity. Qed.

(** ** Scan loop: passes that reach the save *)

Lemma events_of_app t1 t2 : events_of (t1 ++ t2) = events_of t1 ++ events_of t2.
Proof. apply omap_app. Qed.

Lemma events_of_emit (evs : list event) : events_of (Emit <$> evs) = evs.
Proof.
  induction evs as [|e evs IH]; [done |].
  rewrite fmap_cons. change (e :: events_of (Emit <$> evs) = e :: evs).
  by rewrite IH.
Qed.

Lemma sinks_app p t1 t2 : sinks p (t1 ++ t2) = sinks p t1 + sinks p t2.
Proof. unfold sinks. by rewrite List.filter_app, length_app. Qed.

Lemma sinks_emit p (evs : list event) : sinks p (Emit <$> evs) = 0.
Proof. by induction evs. Qed.

(** What a pass does once the previous snapshot is well formed. *)
Lemma cycle_reaches_save `{SetOrder} cfg path once env st pd :
  snapshot_devices (load_state (store st) path (iso env)) pd →
  let r := cycle cfg path once env st in
  let sv := save_state (store st) path (scanned env) (iso env) (fault env) in
  events_of r.2
  = (reconcile (scanned env) (load_state (store st) path (iso env))).1
  ∧ store r.1 = sv.2
  ∧ scan_count r.1 = S (scan_count st)
  ∧ consecutive_errors r.1 ≤ max_consecutive_errors
  ∧ (sleep_raises (scan_interval cfg) = false →
     consecutive_errors r.1 < max_consecutive_errors)
  ∧ running r.1 = negb once && negb (interrupt env)
  ∧ last_heartbeat_hour r.1 = hour env
  ∧ sinks is_heartbeat r.2
    = (if Z.eqb (hour env) (last_heartbeat_hour st) then 0 else 1)
  ∧ sinks is_stopped r.2 = (if negb once && interrupt env then 1 else 0)
  ∧ (sinks is_stopped r.2 = 1 →
     last r.2 = Some (Sink Stopped (timestamp env))).
Proof.
  intros Hpd r sv. subst r sv. unfold cycle.
  rewrite (reconcile_events _ _ _ Hpd). cbn [fst].
  destruct (save_state (store st) path (scanned env) (iso env) (fault env))
    as [saved fs'].
  cbn [fst snd store scan_count consecutive_errors running
       last_heartbeat_hour].
  rewrite !events_of_app, events_of_emit, !sinks_app, !sinks_emit.
  unfold max_consecutive_errors.
  split.
  { destruct (negb (hour env =? last_heartbeat_hour st)%Z),
      (Nat.leb 10 _), (negb once && interrupt env);
      cbn; by rewrite ?app_nil_r. }
  split; [done |]. split; [done |].
  assert ((if Nat.leb 10 (if saved then 0 else S (consecutive_errors st))
           then 0 else if saved then 0 else S (consecutive_errors st)) < 10)
    as Hbelow.
  { destruct saved; [simpl; lia |].
    destruct (Nat.leb_spec 10 (S (consecutive_errors st))); lia. }
  split; [destruct (_ && sleep_raises _); lia |].
  split; [intros ->; by rewrite andb_false_r |].
  split; [done |]. split.
  { destruct (Z.eqb_spec (hour env) (last_heartbeat_hour st)); by simpl. }
  split.
  { destruct (hour env =? last_heartbeat_hour st)%Z, (Nat.leb 10 _),
      (negb once && interrupt env); reflexivity. }
  split.
  { destruct (negb (hour env =? last_heartbeat_hour st)%Z), (Nat.leb 10 _),
      (negb once && interrupt env); reflexivity. }
  destruct (negb once && interrupt env).
  - intros _. rewrite !app_assoc. by rewrite last_snoc.
  - destruct (negb (hour env =? last_heartbeat_hour st)%Z), (Nat.leb 10 _);
      by cbn.
Qed.

Lemma default_last_cons {A} (x0 x : A) (l : list A) :
  default x0 (last (x :: l)) = default x (last l).
Proof.
  revert x0 x. induction l as [|a l IH]; intros x0 x; [done |].
  change (last (x :: a :: l)) with (last (a :: l)).
  by rewrite (IH x0 a), (IH x a).
Qed.

(** A run without Ctrl-C from a loadable state file, fact by fact. *)
Lemma run_loop_facts `{SetOrder} cfg path envs st :
  running st = true →
  loads_ok (store st) path →
  Forall (λ env, interrupt env = false) envs →
  let r := run_loop cfg path false envs st in
  running r.1 = true
  ∧ loads_ok (store r.1) path
  ∧ (consecutive_errors st ≤ max_consecutive_errors →
     consecutive_errors r.1 ≤ max_consecutive_errors)
  ∧ (sleep_raises (scan_interval cfg) = false →
     consecutive_errors st < max_consecutive_errors →
     consecutive_errors r.1 < max_consecutive_errors)
  ∧ scan_count r.1 = scan_count st + length envs
  ∧ sinks is_heartbeat r.2
    = hour_changes (last_heartbeat_hour st) (hour <$> envs)
  ∧ last_heartbeat_hour r.1
    = default (last_heartbeat_hour st) (last (hour <$> envs))
  ∧ sinks is_stopped r.2 = 0.
Proof.
  intros Hrun Hok Henvs. revert st Hrun Hok.
  induction Henvs as [|env envs Hint _ IH]; intros st Hrun Hok.
  - cbn. repeat split; try done; lia.
  - cbn [run_loop]. rewrite Hrun.
    destruct (Hok (iso env)) as [pd Hpd].
    pose proof (cycle_reaches_save cfg path false env st pd Hpd)
      as (_ & _ & Hsc & Hle1 & Hlt1 & Hrun1 & Hh1 & Hb1 & Hs1 & _).
    pose proof (cycle_keeps_going cfg path env st Hok Hint) as [_ Hok1].
    destruct (cycle cfg path false env st) as [st1 t1]. cbn [fst snd] in *.
    rewrite Hint in Hrun1, Hs1. cbn in Hrun1, Hs1.
    specialize (IH st1 Hrun1 Hok1)
      as (Hr & Ho & Hle & Hlt & Hn & Hb & Hh & Hs).
    destruct (run_loop cfg path false envs st1) as [st2 t2].
    cbn [fst snd] in *.
    rewrite !sinks_app, Hb1, Hs1, Hb, Hs, Hn, Hsc, Hh, Hh1.
    rewrite fmap_cons, default_last_cons.
    repeat split; try done; try (cbn [length]; lia); auto.
Qed.

(** X17: in a run without Ctrl-C that starts with a loadable state file,
    every pass reaches the save: the loop keeps running, the state file
    stays loadable and the scan count goes up by one per pass.  The failure
    counter never gets beyond ten, and it stays below ten when the interval
    is one that [time.sleep] accepts; with an interval it refuses (a
    negative one) the sleep counts as a failure of the pass, and the
    counter does reach ten. *)
Theorem run_loop_invariant `{SetOrder} (cfg : Config) (path : Path)
    (envs : list cycle_env) (st : loop_state) :
  running st = true →
  loads_ok (store st) path →
  consecutive_errors st < max_consecutive_errors →
  Forall (λ env, interrupt env = false) envs →
  running (run_loop cfg path false envs st).1 = true
  ∧ loads_ok (store (run_loop cfg path false envs st).1) path
  ∧ consecutive_errors (run_loop cfg path false envs st).1
    ≤ max_consecutive_errors
  ∧ (sleep_raises (scan_interval cfg) = false →
     consecutive_errors (run_loop cfg path false envs st).1
     < max_consecutive_errors)
  ∧ scan_count (run_loop cfg path false envs st).1
    = scan_count st + length envs.
Proof.
  intros Hrun Hok Hc Henvs.
  pose proof (run_loop_facts cfg path envs st Hrun Hok Henvs)
    as (? & ? & Hle & Hlt & ? & _).
  repeat split; try done; [apply Hle; lia | intros; by apply Hlt].
Qed.

Lemma run_loop_invariant_witness :
  let r := run_loop (H := elements_order) CONFIG state_path false
             [pass NoFault; pass WriteFails; pass NoFault] start_state in
  scan_count r.1 = 3 ∧ consecutive_errors r.1 < max_consecutive_errors.
Proof.
  intros r.
  destruct (run_loop_invariant (H := elements_order) CONFIG state_path
              [pass NoFault; pass WriteFails; pass NoFault] start_state)
    as (_ & _ & _ & Hlt & Hn).
  - reflexivity.
  - apply loads_ok_empty.
  - unfold max_consecutive_errors. cbn. lia.
  - by repeat first [apply List.Forall_cons | apply List.Forall_nil].
  - split; [exact Hn | exact (Hlt eq_refl)].
Defined.

(** With [--interval -1] and saves that fail, the counter is at ten after
    the fifth pass. *)
Example negative_interval_counter_at_ten :
  consecutive_errors
    (run_loop (H := elements_order) negative_interval state_path false
       (replicate 5 (pass WriteFails)) start_state).1 = 10.
Proof. vm_compute. reflexivity. Qed.

(** X18: in a run without Ctrl-C that starts with a loadable state file,
    so that every pass reaches the save, a heartbeat is written in exactly
    those passes in which the hour differs from the hour of the last
    heartbeat: the run writes as many heartbeats as the hour changes along
    its passes, and ends with the hour of its last pass as the hour of the
    last heartbeat.  (On a state file that the reconciliation cannot use,
    no pass gets as far as the heartbeat.) *)
Theorem heartbeat_per_hour_change `{SetOrder} (cfg : Config) (path : Path)
    (envs : list cycle_env) (st : loop_state) :
  running st = true →
  loads_ok (store st) path →
  Forall (λ env, interrupt env = false) envs →
  sinks is_heartbeat (run_loop cfg path false envs st).2
  = hour_changes (last_heartbeat_hour st) (hour <$> envs)
  ∧ last_heartbeat_hour (run_loop cfg path false envs st).1
    = default (last_heartbeat_hour st) (last (hour <$> envs)).
Proof.
  intros Hrun Hok Henvs.
  by pose proof (run_loop_facts cfg path envs st Hrun Hok Henvs)
    as (_ & _ & _ & _ & _ & ? & ? & _).
Qed.

Lemma heartbeat_per_hour_change_witness :
  let r := run_loop (H := elements_order) CONFIG state_path false
             [pass_at 12; pass_at 13; pass_at 13; pass_at 14] start_state in
  sinks is_heartbeat r.2 = 2 ∧ last_heartbeat_hour r.1 = 14%Z.
Proof.
  intros r.
  refine (heartbeat_per_hour_change (H := elements_order) CONFIG state_path
            [pass_at 12; pass_at 13; pass_at 13; pass_at 14] start_state
            eq_refl (loads_ok_empty _) _).
  by repeat first [apply List.Forall_cons | apply List.Forall_nil].
Defined.



(** ** Scan loop: what a pass is compared with *)

(** What [save_state] leaves at the target, by the fault it meets. *)
Lemma save_state_target fs path devices now flt :
  name path ≠ EmptyString →
  (save_state fs path devices now flt).2 !! path
  = match flt with
    | NoFault => Some (Json (snapshot devices now))
    | _ => fs !! path
    end.
Proof.
  intros Hname.
  destruct (save_state fs path devices now flt) as [[|] fs'] eqn:Hsave.
  - apply save_state_true in Hsave as (-> & _ & Hp & _). done.
  - apply save_state_false in Hsave as [[Hflt|?] Hp]; [| done].
    cbn [snd]. by destruct flt.
Qed.

Lemma load_state_snapshot fs path now D t :
  fs !! path = Some (Json (snapshot D t)) →
  load_state fs path now = snapshot D t.
Proof. intros Hp. unfold load_state. by rewrite Hp, load_data_snapshot. Qed.

(** X20: when the state file holds the scan [ref], the events of a run
    are those of comparing each pass with the last scan that was saved
    successfully: a pass whose save fails is not what the next pass is
    compared with. *)
Theorem run_loop_events `{SetOrder} (cfg : Config) (path : Path)
    (envs : list cycle_env) (st : loop_state) (ref : DeviceSet)
    (ref_time : string) :
  running st = true →
  store st !! path = Some (Json (snapshot ref ref_time)) →
  name path ≠ EmptyString →
  Forall (λ env, interrupt env = false) envs →
  events_of (run_loop cfg path false envs st).2
  = expected_events ref ref_time envs.
Proof.
  intros Hrun Hfile Hname Henvs. revert st ref ref_time Hrun Hfile.
  induction Henvs as [|env envs Hint _ IH]; intros st ref ref_time Hrun Hfile;
    [done |].
  cbn [run_loop expected_events]. rewrite Hrun.
  pose proof (load_state_snapshot _ _ (iso env) _ _ Hfile) as Hload.
  pose proof (cycle_reaches_save cfg path false env st (devices_items ref))
    as Hcy.
  rewrite Hload in Hcy.
  specialize (Hcy (snapshot_devices_snapshot ref ref_time))
    as (Hev & Hst & _ & _ & _ & Hrun1 & _).
  pose proof (save_state_target (store st) path (scanned env) (iso env)
                (fault env) Hname) as Htarget.
  rewrite <- Hst in Htarget.
  destruct (cycle cfg path false env st) as [st1 t1]. cbn [fst snd] in *.
  rewrite Hint in Hrun1. cbn in Hrun1.
  assert (events_of (run_loop cfg path false envs st1).2
          = match fault env with
            | NoFault => expected_events (scanned env) (iso env) envs
            | _ => expected_events ref ref_time envs
            end) as Hrest.
  { destruct (fault env); apply IH; try done; by rewrite Htarget. }
  destruct (run_loop cfg path false envs st1) as [st2 t2].
  cbn [fst snd] in *.
  by rewrite events_of_app, Hev, Hrest.
Qed.

Lemma run_loop_events_witness :
  let st := {| consecutive_errors := 0; last_heartbeat_hour := 12;
               scan_count := 0;
               store := {[ state_path := Json (snapshot one_device "T0") ]};
               running := true |} in
  events_of
    (run_loop (H := elements_order) CONFIG state_path false
       [{| scanned := two_devices; iso := "T1"; timestamp := "t1";
           hour := 12; fault := WriteFails; interrupt := false |};
        {| scanned := two_devices; iso := "T2"; timestamp := "t2";
           hour := 12; fault := NoFault; interrupt := false |}] st).2
  = [{| ev_kind := VERBUNDEN; ev_ip := KStr "192.168.1.9";
        ev_mac := PStr "66:77:88:99:AA:BB" |};
     {| ev_kind := VERBUNDEN; ev_ip := KStr "192.168.1.9";
        ev_mac := PStr "66:77:88:99:AA:BB" |}].
Proof.
  intros st.
  rewrite (run_loop_events (H := elements_order) CONFIG state_path _ st
             one_device "T0").
  - vm_compute. reflexivity.
  - reflexivity.
  - apply lookup_singleton_eq.
  - discriminate.
  - by repeat first [apply List.Forall_cons | apply List.Forall_nil].
Defined.





(** ** Scan loop: single-shot mode and unusable state files *)



Lemma reconcile_unusable `{SetOrder} current previous :
  unusable_snapshot previous → reconcile current previous = ([], false).
Proof.
  unfold unusable_snapshot, reconcile.
  destruct previous as [| | | | |top]; try done.
  by destruct (default (PDict []) (Dict.get (KStr "devices") top)).
Qed.

(** X23: when the state file loads as something the reconciliation cannot
    use (a list, or a dictionary whose ["devices"] is [null]), every pass
    takes the exception path: nothing is logged or sent, the state file is
    never rewritten, the scan count stands still and the failure counter
    grows by one per pass without ever leading to a warning; not even
    single-shot mode makes the loop stop. *)
Theorem unusable_snapshot_stalls `{SetOrder} (cfg : Config) (path : Path)
    (once : bool) (envs : list cycle_env) (st : loop_state) :
  running st = true →
  (∀ now, unusable_snapshot (load_state (store st) path now)) →
  Forall (λ env, interrupt env = false) envs →
  let r := run_loop cfg path once envs st in
  r.2 = []
  ∧ running r.1 = true
  ∧ store r.1 = store st
  ∧ scan_count r.1 = scan_count st
  ∧ consecutive_errors r.1 = consecutive_errors st + length envs.
Proof.
  intros Hrun Hbad Henvs. revert st Hrun Hbad.
  induction Henvs as [|env envs Hint _ IH]; intros st Hrun Hbad.
  - cbn. repeat split; try done; lia.
  - cbn [run_loop]. rewrite Hrun. unfold cycle.
    rewrite (reconcile_unusable _ _ (Hbad (iso env))). rewrite Hint.
    cbn [negb fmap list_fmap].
    match goal with
    | |- context [run_loop cfg path once envs ?s] => specialize (IH s)
    end.
    cbn [running store scan_count consecutive_errors] in IH.
    specialize (IH eq_refl Hbad) as (Ht & Hr & Hs & Hn & Hc).
    destruct (run_loop cfg path once envs _) as [st2 t2]. cbn [fst snd] in *.
    subst t2. repeat split; try done. cbn [length]. lia.
Qed.

Lemma unusable_snapshot_stalls_witness :
  let st := {| consecutive_errors := 0; last_heartbeat_hour := 12;
               scan_count := 0;
               store := {[ state_path :=
                             Json (PDict [(KStr "devices", PNone)]) ]};
               running := true |} in
  consecutive_errors
    (run_loop (H := elements_order) CONFIG state_path true
       (replicate 12 (pass NoFault)) st).1 = 12.
Proof.
  intros st.
  refine (proj2 (proj2 (proj2 (proj2
    (unusable_snapshot_stalls (H := elements_order) CONFIG state_path true
       (replicate 12 (pass NoFault)) st eq_refl _ _))))).
  - intros now. vm_compute. exact I.
  - by repeat first [apply List.Forall_cons | apply List.Forall_nil].
Defined.

(** ** Start-up *)

Lemma get_network_info_triple output subnet base :
  get_network_info output = (Some subnet, Some base) → dotted_triple base.
Proof.
  unfold get_network_info. destruct output as [text|]; [| done].
  destruct (re_search ip_pattern text) as [m|] eqn:Hs; [| done].
  apply re_search_match in Hs as (s' & len & Hm).
  apply ip_pattern_shape in Hm as (b & -> & Hb). by intros [= <- <-].
Qed.

(** X24: when [get_network_info] finds an address, [run_monitor] always
    gets past its start-up, whatever the argument and the configured subnet
    are: its first record is "gestartet" and the passes run. *)
Theorem run_monitor_starts `{SetOrder} (cfg : Config) (base_path : string)
    (subnet_arg : option string) (once : bool) (output : option string)
    (net base start_timestamp : string) (start_hour : Z)
    (files : gmap Path content) (envs : list cycle_env) :
  get_network_info output = (Some net, Some base) →
  ∃ st t,
    run_monitor cfg base_path subnet_arg once (Some base) start_timestamp
      start_hour files envs
    = Some (st, Sink Started start_timestamp :: t).
Proof.
  intros Hb%get_network_info_triple.
  pose proof (dotted_triple_nonempty _ Hb) as Hne.
  assert (normalize_subnet (Some base) = Some base) as Hnorm.
  { rewrite <- (StrFacts.app_empty_r base) at 1.
    apply normalize_subnet_triple; [done | by left]. }
  unfold run_monitor.
  destruct (normalize_subnet (str_or subnet_arg (Some (subnet cfg))))
    as [[|a s]|]; rewrite ?Hnorm;
    try (destruct base as [|b base']; [done |]);
    destruct (run_loop _ _ once envs _) as [st' t]; by eexists _, _.
Qed.

Lemma run_monitor_starts_witness :
  ∃ st t,
    run_monitor (H := elements_order) CONFIG "." (Some "192.168") true
      (Some "127.0.0") "2024-01-31 12:00:00" 12 ∅ [pass NoFault]
    = Some (st, Sink Started "2024-01-31 12:00:00" :: t).
Proof.
  exact (run_monitor_starts (H := elements_order) CONFIG "." (Some "192.168")
           true (Some ip_addr_sample) "127.0.0.0" "127.0.0"
           "2024-01-31 12:00:00" 12 ∅ [pass NoFault] eq_refl).
Defined.

(** Without an address from the interfaces, an argument of two parts
    stops the start-up, although the configuration names a subnet. *)
Example run_monitor_two_part_argument :
  run_monitor (H := elements_order) CONFIG "." (Some "192.168") true None
    "2024-01-31 12:00:00" 12 ∅ [pass NoFault] = None.
Proof. reflexivity. Qed.
